(** * Robot simulator: a shallow embedding of [robot-simulator.js]

    The embedding follows the JavaScript source method by method.  A method of
    [Robot] is a computation over the receiver ([this]) that either completes
    normally or throws; a throw keeps whatever the method had already written
    into the receiver, exactly as a JavaScript exception does.

    Modelling choices:
    - JavaScript values are the inductive [value]; a number is an IEEE 754
      binary64 value, taken from the bit-level specification [SpecFloat] of
      the standard library (53 bits of precision, infinities at exponent
      1024), so that [++] and [--] round as the JavaScript operators do;
    - strings are sequences of ASCII characters, so the iteration
      [[...instructions]] yields one element per character;
    - plain objects are association lists of own enumerable properties. *)

From Stdlib Require Import ZArith String Ascii List Bool Lia.
From Stdlib Require Import SpecFloat.
Import ListNotations.

Set Warnings "-register-all".

Local Open Scope Z_scope.
Local Open Scope string_scope.

(** ** JavaScript values *)

(** Numbers are the doubles of IEEE 754: signed zeros, signed infinities,
    [NaN], and finite values [(-1)^s * m * 2^e].  A JavaScript number is a
    value for which [valid_binary prec emax] holds; the other values of
    [spec_float] stand for no number, and no statement below depends on
    them. *)
Definition prec : Z := 53.

Definition emax : Z := 1024.

Definition number : Type := spec_float.

Definition NaN : number := S754_nan.

Definition Infinity : number := S754_infinity false.

(** The value of an integer literal: the double nearest to [z]. *)
Definition num (z : Z) : number := binary_normalize prec emax z 0 false.

(** The operators [+] and [-] on numbers. *)
Definition js_add : number -> number -> number := SFadd prec emax.

Definition js_sub : number -> number -> number := SFsub prec emax.

(** What [x++] and [x--] store back when [x] holds a number. *)
Definition increment (x : number) : number := js_add x (num 1).

Definition decrement (x : number) : number := js_sub x (num 1).

Inductive value : Type :=
| VUndefined
| VNull
| VBoolean (b : bool)
| VNumber (n : number)
| VString (s : string)
| VArray (elements : list value)
| VObject (props : list (string * value))
| VInstance (class : string) (props : list (string * value)).

(** The [typeof] operator. *)
Definition typeof (v : value) : string :=
  match v with
  | VUndefined => "undefined"
  | VBoolean _ => "boolean"
  | VNumber _ => "number"
  | VString _ => "string"
  | VNull | VArray _ | VObject _ | VInstance _ _ => "object"
  end.

(** [v === 'lit'] for a string literal. *)
Definition strict_eq_string (v : value) (lit : string) : bool :=
  match v with
  | VString s => String.eqb s lit
  | _ => false
  end.

Infix "===" := strict_eq_string (at level 70, no associativity).

(** Truthiness, as used by [&&] and [!!]. *)
Definition truthy (v : value) : bool :=
  match v with
  | VUndefined | VNull => false
  | VBoolean b => b
  | VNumber (S754_nan | S754_zero _) => false
  | VNumber _ => true
  | VString s => negb (String.eqb s EmptyString)
  | VArray _ | VObject _ | VInstance _ _ => true
  end.

Definition Number_isNaN (v : value) : bool :=
  match v with
  | VNumber S754_nan => true
  | _ => false
  end.

Fixpoint assoc {A : Type} (k : string) (l : list (string * A)) : option A :=
  match l with
  | [] => None
  | (k', a) :: l' => if String.eqb k k' then Some a else assoc k l'
  end.

(** [obj.constructor === Object]: a plain object inherits [constructor] from
    [Object.prototype] unless an own property shadows it; no [value] denotes
    the function [Object] itself, so a shadowing property never compares
    equal. Arrays, instances of other classes and boxed primitives have other
    constructors. *)
Definition constructor_is_Object (v : value) : bool :=
  match v with
  | VObject props =>
      match assoc "constructor" props with
      | None => true
      | Some _ => false
      end
  | _ => false
  end.

(** Property read on a plain object, as in [const { x, y, direction } = placement]. *)
Definition get_prop (v : value) (k : string) : value :=
  match v with
  | VObject props =>
      match assoc k props with
      | Some a => a
      | None => VUndefined
      end
  | _ => VUndefined
  end.

(** [Object.keys(obj).length]. *)
Definition Object_keys_length (v : value) : nat :=
  match v with
  | VObject props => List.length props
  | _ => 0%nat
  end.

(** ** utils *)

(** [typeof num === 'number' && !Number.isNaN(Number(num))]; [Number] is the
    identity on numbers. *)
Definition validateNumber (num : value) : bool :=
  String.eqb (typeof num) "number" && negb (Number_isNaN num).

(** [!!(typeof str === 'string')] *)
Definition validateString (str : value) : bool :=
  String.eqb (typeof str) "string".

(** [!!(obj && obj.constructor === Object)] *)
Definition validateObject (obj : value) : bool :=
  truthy obj && constructor_is_Object obj.

(** ** Errors *)

Inductive error : Type :=
| Error (message : string)
| InvalidInputError (message : string)
| TypeError.

(** [new InvalidInputError(message)]: [this.message = message || 'Invalid input']. *)
Definition new_InvalidInputError (message : string) : error :=
  InvalidInputError
    (if String.eqb message EmptyString then "Invalid input" else message).

Definition is_InvalidInput (e : error) : bool :=
  match e with
  | InvalidInputError _ => true
  | _ => false
  end.

(** ** The receiver and the method monad *)

Record Robot : Type := mkRobot {
  orientation : value;
  coords : option (number * number)
}.

(** [new Robot()]: both fields are left undefined. *)
Definition new_Robot : Robot :=
  {| orientation := VUndefined; coords := None |}.

Inductive completion (A : Type) : Type :=
| Normal (a : A)
| Throw (e : error).

Arguments Normal {A} a.
Arguments Throw {A} e.

Definition M (A : Type) : Type := Robot -> completion A * Robot.

Definition ret {A : Type} (a : A) : M A := fun this => (Normal a, this).

Definition throw {A : Type} (e : error) : M A := fun this => (Throw e, this).

Definition bind {A B : Type} (c : M A) (k : A -> M B) : M B :=
  fun this =>
    match c this with
    | (Normal a, this') => k a this'
    | (Throw e, this') => (Throw e, this')
    end.

Notation "x <- c ;; k" := (bind c (fun x => k))
  (at level 61, c at next level, right associativity).
Notation "c ;;; k" := (bind c (fun _ => k))
  (at level 61, right associativity).

Definition get_this : M Robot := fun this => (Normal this, this).

Definition set_orientation (o : value) : M unit :=
  fun this => (Normal tt, {| orientation := o; coords := coords this |}).

Definition set_coords (c : number * number) : M unit :=
  fun this => (Normal tt, {| orientation := orientation this; coords := Some c |}).

(** A static method does not touch the receiver. *)
Definition lift {A : Type} (c : completion A) : M A := fun this => (c, this).

(** ** class Robot *)

(** [static directions = ['north', 'east', 'south', 'west']] *)
Definition directions : list string := ["north"; "east"; "south"; "west"].

(** [Array.prototype.includes] on an array of string literals. *)
Definition includes (l : list string) (v : value) : bool :=
  existsb (fun d => v === d) l.

(** [Array.prototype.indexOf]: the first index holding [v], or [-1]. *)
Fixpoint indexOf_from (i : Z) (l : list string) (v : value) : Z :=
  match l with
  | [] => -1
  | d :: l' => if v === d then i else indexOf_from (i + 1) l' v
  end.

Definition indexOf (l : list string) (v : value) : Z := indexOf_from 0 l v.

(** [arr[i]]: [undefined] outside the array. *)
Definition array_get (l : list string) (i : Z) : value :=
  if (i <? 0)%Z then VUndefined
  else match nth_error l (Z.to_nat i) with
       | Some d => VString d
       | None => VUndefined
       end.

Definition orient (o : value) : M unit :=
  if negb (includes directions o)
  then throw (new_InvalidInputError "Must enter a valid orientation")
  else set_orientation o.

Definition bearing : M value :=
  this <- get_this ;; ret (orientation this).

Definition coordinates : M (option (number * number)) :=
  this <- get_this ;; ret (coords this).

(** The private method [#turn]; [%] is the remainder truncated towards zero. *)
Definition turn (turnDirection : value) : M unit :=
  if negb (validateString turnDirection)
  then throw (new_InvalidInputError "Must enter a valid turn direction")
  else
    let direction := if turnDirection === "right" then 1 else 3 in
    b <- bearing ;;
    let currentDirectionIndex := indexOf directions b in
    let newOrientation :=
      array_get directions
        (Z.rem (currentDirectionIndex + direction)
               (Z.of_nat (List.length directions))) in
    orient newOrientation.

Definition turnRight : M unit := turn (VString "right").

Definition turnLeft : M unit := turn (VString "left").

(** The number a value holds; after the validation of [at] both arguments
    are numbers other than [NaN]. *)
Definition number_of (v : value) : number :=
  match v with
  | VNumber n => n
  | _ => NaN
  end.

Definition at_ (x y : value) : M unit :=
  if negb (validateNumber x) || negb (validateNumber y)
  then throw (new_InvalidInputError "Must enter valid coordinates")
  else set_coords (number_of x, number_of y).

(** What [advance] returns: the old value of the updated cell, or
    [this.coords] itself in the default branch. *)
Inductive advance_result : Type :=
| OldCell (n : number)
| Coords (c : option (number * number)).

(** The two cells of [this.coords]. *)
Inductive cell : Type := Cell0 | Cell1.

(** [this.coords[i]++] and [this.coords[i]--] ([update] is [increment] or
    [decrement]): reading a cell of [undefined] is a [TypeError]; otherwise
    the cell is overwritten with the updated number and the old one is
    returned. *)
Definition coords_postfix (i : cell) (update : number -> number)
  : M advance_result :=
  fun this =>
    match coords this with
    | None => (Throw TypeError, this)
    | Some (x, y) =>
        match i with
        | Cell0 =>
            (Normal (OldCell x),
             {| orientation := orientation this; coords := Some (update x, y) |})
        | Cell1 =>
            (Normal (OldCell y),
             {| orientation := orientation this; coords := Some (x, update y) |})
        end
    end.

Definition advance : M advance_result :=
  this <- get_this ;;
  if orientation this === "north" then coords_postfix Cell1 increment
  else if orientation this === "east" then coords_postfix Cell0 increment
  else if orientation this === "south" then coords_postfix Cell1 decrement
  else if orientation this === "west" then coords_postfix Cell0 decrement
  else ret (Coords (coords this)).

(** [static commands = { A: 'advance', L: 'turnLeft', R: 'turnRight' }] *)
Definition commands : list (string * string) :=
  [("A", "advance"); ("L", "turnLeft"); ("R", "turnRight")].

(** [Robot.commands[key]] *)
Definition commands_get (key : string) : value :=
  match assoc key commands with
  | Some m => VString m
  | None => VUndefined
  end.

(** [String.prototype.toUpperCase] on ASCII. *)
Definition toUpperCase_char (c : ascii) : ascii :=
  let n := N_of_ascii c in
  if ((97 <=? n) && (n <=? 122))%N then ascii_of_N (n - 32) else c.

Fixpoint toUpperCase (s : string) : string :=
  match s with
  | EmptyString => EmptyString
  | String c s' => String (toUpperCase_char c) (toUpperCase s')
  end.

(** The character class [[ARL]]. *)
Definition class_ARL (c : ascii) : bool :=
  Ascii.eqb c "A" || Ascii.eqb c "R" || Ascii.eqb c "L".

Fixpoint all_class_ARL (s : string) : bool :=
  match s with
  | EmptyString => true
  | String c s' => class_ARL c && all_class_ARL s'
  end.

(** [/^[ARL]+$/.test(s)]: one or more characters of the class, and nothing
    else between the start and the end of the input. *)
Definition test_ARL_plus (s : string) : bool :=
  match s with
  | EmptyString => false
  | String _ _ => all_class_ARL s
  end.

Definition string_of (v : value) : string :=
  match v with
  | VString s => s
  | _ => EmptyString
  end.

(** [[...s]]: the characters of [s] as one-character strings. *)
Definition spread (s : string) : list string :=
  map (fun c => String c EmptyString) (list_ascii_of_string s).

Definition dquote : string := String (ascii_of_nat 34) EmptyString.

Definition instructions_message : string :=
  "Must enter a valid instruction command string. Allowed characters are "
  ++ dquote ++ "L" ++ dquote ++ ", " ++ dquote ++ "R" ++ dquote ++ " and "
  ++ dquote ++ "A" ++ dquote.

(** [static instructions(instructions)] *)
Definition instructions (instrs : value) : completion (list value) :=
  if negb (validateString instrs)
     || negb (test_ARL_plus (toUpperCase (string_of instrs)))
  then Throw (new_InvalidInputError instructions_message)
  else Normal (map (fun instruction => commands_get instruction)
                   (spread (string_of instrs))).

Definition place (placement : value) : M unit :=
  if negb (validateObject placement)
  then throw (Error "Invalid placement data type")
  else if (Object_keys_length placement =? 0)%nat
  then throw (Error "Placement data must not be empty")
  else
    let x := get_prop placement "x" in
    let y := get_prop placement "y" in
    let direction := get_prop placement "direction" in
    at_ x y ;;; orient direction.

(** [this[instruction]()]: the three methods the [commands] table names; any
    other element the table can produce is [undefined], and calling
    [this[undefined]] is a [TypeError]. *)
Definition call_method (instruction : value) : M unit :=
  if instruction === "advance" then advance ;;; ret tt
  else if instruction === "turnLeft" then turnLeft
  else if instruction === "turnRight" then turnRight
  else throw TypeError.

(** [Array.prototype.forEach]: the callback runs on each element in order; an
    exception leaves the loop. *)
Fixpoint forEach {A : Type} (l : list A) (callback : A -> M unit) : M unit :=
  match l with
  | [] => ret tt
  | a :: l' => callback a ;;; forEach l' callback
  end.

Definition evaluate (instrs : value) : M unit :=
  instructionsCommands <- lift (instructions instrs) ;;
  forEach instructionsCommands (fun instruction => call_method instruction).


(** ** Callers

    A caller drives a robot through its public operations and may catch what
    an operation throws; the receiver then carries on from the state the
    throwing call left behind. *)

Inductive operation : Type :=
| OpOrient (o : value)
| OpTurnLeft
| OpTurnRight
| OpAdvance
| OpPlace (placement : value)
| OpEvaluate (instrs : value).

Definition perform (op : operation) : M unit :=
  match op with
  | OpOrient o => orient o
  | OpTurnLeft => turnLeft
  | OpTurnRight => turnRight
  | OpAdvance => advance ;;; ret tt
  | OpPlace placement => place placement
  | OpEvaluate instrs => evaluate instrs
  end.

Fixpoint perform_all (ops : list operation) (this : Robot) : Robot :=
  match ops with
  | [] => this
  | op :: ops' => perform_all ops' (snd (perform op this))
  end.

(** The orientation is one of the four names of [directions]. *)
Definition one_of_four_names (v : value) : Prop :=
  v = VString "north" \/ v = VString "east"
  \/ v = VString "south" \/ v = VString "west".

(** ** The state machine of the specification

    Spec sections 3 and 4.1: four orientations in the cyclic order North,
    East, South, West; three instructions; a placed robot is an orientation
    and a position on the integer lattice.  These definitions follow the
    words of the specification and are compared with the methods above. *)

Inductive Orientation : Type := North | East | South | West.

Inductive Instruction : Type := Advance | TurnLeft | TurnRight.

Definition spec_name (o : Orientation) : string :=
  match o with
  | North => "north"
  | East => "east"
  | South => "south"
  | West => "west"
  end.

Definition spec_turnRight (o : Orientation) : Orientation :=
  match o with
  | North => East
  | East => South
  | South => West
  | West => North
  end.

Definition spec_turnLeft (o : Orientation) : Orientation :=
  match o with
  | North => West
  | West => South
  | South => East
  | East => North
  end.

Definition spec_advance (o : Orientation) (p : Z * Z) : Z * Z :=
  let (x, y) := p in
  match o with
  | North => (x, y + 1)
  | East => (x + 1, y)
  | South => (x, y - 1)
  | West => (x - 1, y)
  end.

Definition spec_step (st : Orientation * (Z * Z)) (i : Instruction)
  : Orientation * (Z * Z) :=
  match i with
  | Advance => (fst st, spec_advance (fst st) (snd st))
  | TurnLeft => (spec_turnLeft (fst st), snd st)
  | TurnRight => (spec_turnRight (fst st), snd st)
  end.

Definition spec_run (prog : list Instruction) (st : Orientation * (Z * Z))
  : Orientation * (Z * Z) :=
  fold_left spec_step prog st.

(** The command character of an instruction, in upper case. *)
Definition command_char (i : Instruction) : ascii :=
  match i with
  | Advance => "A"
  | TurnLeft => "L"
  | TurnRight => "R"
  end.

Definition command_string (prog : list Instruction) : string :=
  string_of_list_ascii (map command_char prog).

(** The method name the [commands] table gives for an instruction. *)
Definition method_name (i : Instruction) : value :=
  match i with
  | Advance => VString "advance"
  | TurnLeft => VString "turnLeft"
  | TurnRight => VString "turnRight"
  end.

(** A placed receiver: the orientation is one of the four names and the
    position is set. *)
Definition placed (st : Orientation * (number * number)) : Robot :=
  {| orientation := VString (spec_name (fst st)); coords := Some (snd st) |}.

(** The numbers that hold a lattice point of the specification. *)
Definition on_lattice (st : Orientation * (Z * Z))
  : Orientation * (number * number) :=
  (fst st, (num (fst (snd st)), num (snd (snd st)))).

(** The method an instruction stands for, and the receiver after the methods
    of a program have run in order. *)
Definition instruction_method (i : Instruction) : M unit :=
  match i with
  | Advance => advance ;;; ret tt
  | TurnLeft => turnLeft
  | TurnRight => turnRight
  end.

Definition run_methods (prog : list Instruction) (this : Robot) : Robot :=
  fold_left (fun r i => snd (instruction_method i r)) prog this.

(** The integers whose successor and predecessor are computed exactly by
    [++] and [--]: those of magnitude at most [2^53 - 1]. *)
Definition safe_integer (z : Z) : Prop := - 2 ^ 53 < z < 2 ^ 53.

(** A positive shifted left by [k] bits. *)
Definition shift (p : positive) (k : Z) : positive :=
  match k with
  | Zpos n => Pos.iter xO p n
  | _ => p
  end.

(** The double of a non-zero integer of at most 53 bits: the mantissa is
    brought to 53 bits and the exponent compensates. *)
Definition fl (s : bool) (q : positive) : number :=
  S754_finite s (shift q (53 - Zpos (digits2_pos q)))
    (Zpos (digits2_pos q) - 53).

(** The integer a number denotes, when it denotes one. *)
Definition integer_value (n : number) : option Z :=
  match n with
  | S754_zero _ => Some 0
  | S754_finite s m (Zneg k) =>
      if (Zpos m mod 2 ^ Zpos k =? 0)%Z
      then Some (cond_Zopp s (Zpos m / 2 ^ Zpos k))
      else None
  | S754_finite s m e => Some (cond_Zopp s (Zpos m * 2 ^ e))
  | _ => None
  end.

(** The number of [Advance] instructions of a program. *)
Fixpoint advances (prog : list Instruction) : Z :=
  match prog with
  | [] => 0
  | Advance :: prog' => 1 + advances prog'
  | _ :: prog' => advances prog'
  end.

(** The six characters the validation of [instructions] lets through. *)
Definition command_letters : list ascii :=
  ["A"; "L"; "R"; "a"; "l"; "r"]%char.

(** Room on the lattice for [n] more unit steps: both coordinates stay of
    magnitude at most [2^53] however the steps are directed. *)
Definition lattice_room (n : Z) (st : Orientation * (Z * Z)) : Prop :=
  Z.abs (fst (snd st)) + n <= 2 ^ 53 /\ Z.abs (snd (snd st)) + n <= 2 ^ 53.

(** ** Sample data *)

Definition sample_robot : Robot :=
  {| orientation := VString "north"; coords := Some (num 0, num 0) |}.

Definition sample_placement : value :=
  VObject [("x", VNumber (num 0)); ("y", VNumber (num 0));
           ("direction", VString "north")].

Definition bad_direction_placement : value :=
  VObject [("x", VNumber (num 1)); ("y", VNumber (num 2));
           ("direction", VString "up")].

(** The robot of magnitude [2^53] facing east, where [++] no longer moves. *)
Definition far_east_robot : Robot :=
  {| orientation := VString "east"; coords := Some (num (2 ^ 53), num 0) |}.

(** * Properties *)

(** ** Shared lemmas *)

Lemma includes_directions (v : value) :
  includes directions v = true <-> one_of_four_names v.
Proof.
  unfold includes, directions, one_of_four_names; simpl.
  destruct v; simpl;
    try (split; [discriminate | intros [H | [H | [H | H]]]; discriminate H]).
  rewrite !orb_true_iff, !String.eqb_eq.
  split.
  - intros [H | [H | [H | [H | H]]]]; subst; auto; discriminate H.
  - intros [H | [H | [H | H]]]; injection H as ->; auto.
Qed.

Lemma one_of_four_names_In (d : string) :
  In d directions -> one_of_four_names (VString d).
Proof.
  unfold one_of_four_names; simpl.
  intros [<- | [<- | [<- | [<- | []]]]]; auto.
Qed.

Ltac four_names H :=
  destruct H as [H | [H | [H | H]]].

(** [orient] either rejects its argument and writes nothing, or stores a
    value of the table. *)
Lemma orient_cases (o : value) (this : Robot) :
  (includes directions o = false
   /\ orient o this
      = (Throw (InvalidInputError "Must enter a valid orientation"), this))
  \/ (includes directions o = true
      /\ orient o this
         = (Normal tt, {| orientation := o; coords := coords this |})).
Proof.
  unfold orient.
  destruct (includes directions o); [right | left]; split; reflexivity.
Qed.

Lemma orient_coords (o : value) (this : Robot) :
  coords (snd (orient o this)) = coords this.
Proof.
  destruct (orient_cases o this) as [[_ ->] | [_ ->]]; reflexivity.
Qed.

Lemma orient_keeps_names (o : value) (this : Robot) :
  one_of_four_names (orientation this) ->
  one_of_four_names (orientation (snd (orient o this))).
Proof.
  intros Hthis.
  destruct (orient_cases o this) as [[_ ->] | [Ho ->]]; simpl.
  - exact Hthis.
  - now apply includes_directions.
Qed.

Lemma turn_unfold (td : value) (this : Robot) :
  validateString td = true ->
  turn td this
  = orient
      (array_get directions
         (Z.rem (indexOf directions (orientation this)
                 + (if td === "right" then 1 else 3))
                (Z.of_nat (List.length directions))))
      this.
Proof.
  intros Htd.
  unfold turn; rewrite Htd; reflexivity.
Qed.

Lemma turn_coords (td : value) (this : Robot) :
  coords (snd (turn td this)) = coords this.
Proof.
  destruct (validateString td) eqn:Htd.
  - rewrite turn_unfold by assumption. apply orient_coords.
  - unfold turn; rewrite Htd; reflexivity.
Qed.

Lemma turn_keeps_names (td : value) (this : Robot) :
  one_of_four_names (orientation this) ->
  one_of_four_names (orientation (snd (turn td this))).
Proof.
  intros Hthis.
  destruct (validateString td) eqn:Htd.
  - rewrite turn_unfold by assumption. now apply orient_keeps_names.
  - unfold turn; rewrite Htd; exact Hthis.
Qed.

Lemma advance_orientation (this : Robot) :
  orientation (snd (advance this)) = orientation this.
Proof.
  unfold advance, bind, get_this, coords_postfix, ret.
  destruct this as [o c]; simpl.
  repeat match goal with
         | |- context [if ?b then _ else _] => destruct b
         end;
    destruct c as [[x y] |]; reflexivity.
Qed.

Lemma at_orientation (x y : value) (this : Robot) :
  orientation (snd (at_ x y this)) = orientation this.
Proof.
  unfold at_.
  destruct (negb (validateNumber x) || negb (validateNumber y)); reflexivity.
Qed.

Lemma turn_completes (td : value) (this : Robot) :
  validateString td = true ->
  fst (turn td this) = Normal tt.
Proof.
  intros Htd.
  rewrite turn_unfold by assumption.
  destruct this as [o c]; unfold indexOf; simpl.
  destruct (o === "north"), (o === "east"), (o === "south"),
    (o === "west"), (td === "right"); reflexivity.
Qed.

Lemma advance_coords_set (this : Robot) :
  coords this <> None -> coords (snd (advance this)) <> None.
Proof.
  unfold advance, bind, get_this, coords_postfix, ret.
  destruct this as [o [[x y] |]]; cbn; [| contradiction].
  intros _.
  repeat match goal with
         | |- context [if ?b then _ else _] => destruct b
         end; discriminate.
Qed.

Lemma advance_with_position (this : Robot) :
  coords this <> None -> exists r, fst (advance this) = Normal r.
Proof.
  unfold advance, bind, get_this, coords_postfix, ret.
  destruct this as [o [[x y] |]]; cbn; [| contradiction].
  intros _.
  repeat match goal with
         | |- context [if ?b then _ else _] => destruct b
         end; eexists; reflexivity.
Qed.

(** ** Numbers

    [++] and [--] are exact on the integers of magnitude at most [2^53 - 1];
    the lemmas follow the rounding of [SpecFloat] bit by bit. *)

Lemma iter_xO_value (p n : positive) :
  Zpos (Pos.iter xO p n) = Zpos p * 2 ^ Zpos n.
Proof.
  induction n as [| n IH] using Pos.peano_ind.
  - simpl. lia.
  - rewrite Pos.iter_succ, Pos2Z.inj_succ, Z.pow_succ_r by lia.
    rewrite Pos2Z.inj_xO, IH. ring.
Qed.

Lemma shift_value (p : positive) (k : Z) :
  0 <= k -> Zpos (shift p k) = Zpos p * 2 ^ k.
Proof.
  destruct k as [| n | n]; simpl shift; intros Hk.
  - rewrite Z.pow_0_r. lia.
  - apply iter_xO_value.
  - lia.
Qed.

Lemma digits2_iter_xO (p n : positive) :
  digits2_pos (Pos.iter xO p n) = (digits2_pos p + n)%positive.
Proof.
  induction n as [| n IH] using Pos.peano_ind.
  - simpl. lia.
  - rewrite Pos.iter_succ. simpl. rewrite IH. lia.
Qed.

Lemma digits2_shift (p : positive) (k : Z) :
  0 <= k -> Zpos (digits2_pos (shift p k)) = Zpos (digits2_pos p) + k.
Proof.
  destruct k as [| n | n]; simpl shift; intros Hk.
  - lia.
  - rewrite digits2_iter_xO. lia.
  - lia.
Qed.

Lemma iter_pos_iter {A : Type} (f : A -> A) (n : positive) (x : A) :
  iter_pos f n x = Pos.iter f x n.
Proof.
  revert x.
  induction n as [n IH | n IH |]; intros x; simpl.
  - rewrite !IH. now rewrite <- !Pos.iter_swap.
  - now rewrite !IH.
  - reflexivity.
Qed.

Lemma shr_1_iter_xO (p n : positive) :
  Pos.iter shr_1 (Build_shr_record (Zpos (Pos.iter xO p n)) false false) n
  = Build_shr_record (Zpos p) false false.
Proof.
  revert p.
  induction n as [| n IH] using Pos.peano_ind; intros p.
  - reflexivity.
  - rewrite Pos.iter_succ_r. rewrite Pos.iter_succ. simpl shr_1. apply IH.
Qed.

Lemma shift_shift (p : positive) (a b : Z) :
  0 <= a -> 0 <= b -> shift (shift p a) b = shift p (a + b).
Proof.
  intros Ha Hb.
  destruct a as [| a | a], b as [| b | b]; try lia; try reflexivity.
  simpl. now rewrite Pos.add_comm, Pos.iter_add.
Qed.

Lemma round_aux_shifted (s : bool) (m : positive) (e n : Z) :
  Zpos (digits2_pos m) = 53 ->
  0 <= n ->
  -1074 <= e + n <= 971 ->
  binary_round_aux prec emax s (Zpos (shift m n)) e loc_Exact
  = S754_finite s m (e + n).
Proof.
  intros Hm Hn He.
  assert (Hfexp : forall e', -1074 <= e' ->
                             fexp prec emax (53 + e') = e').
  { intros e' He'. unfold fexp, emin, prec, emax. lia. }
  unfold binary_round_aux, shr_fexp.
  cbn [Zdigits2 shr_record_of_loc].
  rewrite digits2_shift, Hm by assumption.
  replace (53 + n + e) with (53 + (e + n)) by ring.
  rewrite Hfexp by lia.
  replace (e + n - e) with n by ring.
  assert (Hshr : shr (Build_shr_record (Zpos (shift m n)) false false) e n
                 = (Build_shr_record (Zpos m) false false, e + n)).
  { destruct n as [| n | n]; [| | lia].
    - simpl. now rewrite Z.add_0_r.
    - simpl. now rewrite iter_pos_iter, shr_1_iter_xO. }
  rewrite Hshr.
  cbn [shr_m loc_of_shr_record round_nearest_even Zdigits2 shr_record_of_loc].
  rewrite Hm, Hfexp, Z.sub_diag by lia.
  cbn [shr shr_m].
  replace (e + n <=? emax - prec)%Z with true; [reflexivity |].
  symmetry; apply Z.leb_le. unfold emax, prec. lia.
Qed.

Lemma binary_round_exact (s : bool) (q : positive) (k : Z) :
  Zpos (digits2_pos q) <= 53 ->
  0 <= k <= 1000 ->
  binary_round prec emax s (shift q k) (- k)
  = S754_finite s (shift q (53 - Zpos (digits2_pos q)))
      (Zpos (digits2_pos q) - 53).
Proof.
  intros Hd Hk.
  set (d := Zpos (digits2_pos q)) in *.
  assert (Hd1 : 1 <= d) by (unfold d; lia).
  assert (Hdig : Zpos (digits2_pos (shift q (53 - d))) = 53).
  { rewrite digits2_shift by lia. fold d. lia. }
  unfold binary_round.
  rewrite digits2_shift by lia. fold d.
  replace (fexp prec emax (d + k + - k)) with (d - 53)
    by (unfold fexp, emin, prec, emax; lia).
  pose proof (round_aux_shifted s (shift q (53 - d)) (d - 53) 0 Hdig
                ltac:(lia) ltac:(lia)) as H0.
  change (shift (shift q (53 - d)) 0) with (shift q (53 - d)) in H0.
  rewrite Z.add_0_r in H0.
  unfold shl_align.
  destruct (d - 53 - - k) as [| n | n] eqn:Hn.
  - replace k with (53 - d) by lia.
    replace (- (53 - d)) with (d - 53) by ring.
    exact H0.
  - replace (shift q k) with (shift (shift q (53 - d)) (Zpos n)).
    2:{ rewrite shift_shift by lia. f_equal. lia. }
    rewrite round_aux_shifted by (assumption || lia).
    f_equal. lia.
  - change (Pos.iter xO (shift q k) n) with (shift (shift q k) (Zpos n)).
    rewrite shift_shift by lia.
    replace (k + Zpos n) with (53 - d) by lia.
    exact H0.
Qed.

Lemma digits2_bound (p : positive) (n : Z) :
  Zpos p < 2 ^ n -> 0 <= n -> Zpos (digits2_pos p) <= n.
Proof.
  revert n.
  induction p as [p IH | p IH |]; intros n Hp Hn.
  - assert (n <> 0) by (intros ->; simpl in Hp; lia).
    replace n with (Z.succ (n - 1)) in Hp by lia.
    rewrite Z.pow_succ_r in Hp by lia.
    simpl. specialize (IH (n - 1)). lia.
  - assert (n <> 0) by (intros ->; simpl in Hp; lia).
    replace n with (Z.succ (n - 1)) in Hp by lia.
    rewrite Z.pow_succ_r in Hp by lia.
    simpl. specialize (IH (n - 1)). lia.
  - assert (n <> 0) by (intros ->; simpl in Hp; lia).
    simpl. lia.
Qed.

Lemma normalize_scaled (z k : Z) :
  Z.abs z < 2 ^ 53 ->
  0 <= k <= 1000 ->
  binary_normalize prec emax (z * 2 ^ k) (- k) false
  = match z with
    | Z0 => S754_zero false
    | Zpos q => fl false q
    | Zneg q => fl true q
    end.
Proof.
  intros Hz Hk.
  destruct z as [| q | q].
  - reflexivity.
  - rewrite <- shift_value by lia. simpl binary_normalize.
    apply binary_round_exact; [| lia].
    apply digits2_bound; lia.
  - change (Zneg q) with (- Zpos q) at 1.
    rewrite Z.mul_opp_l, <- shift_value by lia. simpl binary_normalize.
    apply binary_round_exact; [| lia].
    apply digits2_bound; lia.
Qed.

Lemma num_fl (z : Z) :
  Z.abs z < 2 ^ 53 ->
  num z = match z with
          | Z0 => S754_zero false
          | Zpos q => fl false q
          | Zneg q => fl true q
          end.
Proof.
  intros Hz.
  pose proof (normalize_scaled z 0 Hz ltac:(lia)) as H.
  rewrite Z.pow_0_r, Z.mul_1_r in H. exact H.
Qed.

Lemma num_scaled (z : Z) :
  Z.abs z < 2 ^ 53 ->
  binary_normalize prec emax (z * 2 ^ 52) (-52) false = num z.
Proof.
  intros Hz.
  rewrite num_fl by assumption.
  now apply (normalize_scaled z 52).
Qed.

Lemma one_fl : num 1 = S754_finite false (shift 1 52) (-52).
Proof. reflexivity. Qed.

Lemma align_fl (q : positive) :
  Zpos (digits2_pos q) <= 53 ->
  Z.min (Zpos (digits2_pos q) - 53) (-52) = -52
  /\ Zpos (fst (shl_align (shift q (53 - Zpos (digits2_pos q)))
                 (Zpos (digits2_pos q) - 53) (-52)))
     = Zpos q * 2 ^ 52.
Proof.
  intros Hd. split; [lia |].
  rewrite <- shift_value by lia.
  unfold shl_align.
  destruct (-52 - (Zpos (digits2_pos q) - 53)) as [| n | n] eqn:Hn.
  - cbn [fst].
    replace (53 - Zpos (digits2_pos q)) with 52 by lia. reflexivity.
  - lia.
  - cbn [fst].
    change (Pos.iter xO (shift q (53 - Zpos (digits2_pos q))) n)
      with (shift (shift q (53 - Zpos (digits2_pos q))) (Zpos n)).
    rewrite shift_shift by lia.
    replace (53 - Zpos (digits2_pos q) + Zpos n) with 52 by lia. reflexivity.
Qed.

Lemma add_one_fl (s : bool) (q : positive) :
  Zpos (digits2_pos q) <= 53 ->
  js_add (fl s q) (num 1)
  = binary_normalize prec emax
      ((cond_Zopp s (Zpos q) + 1) * 2 ^ 52) (-52) false
  /\ js_sub (fl s q) (num 1)
     = binary_normalize prec emax
         ((cond_Zopp s (Zpos q) - 1) * 2 ^ 52) (-52) false.
Proof.
  intros Hd.
  destruct (align_fl q Hd) as [Hmin Hal].
  rewrite one_fl.
  unfold js_add, js_sub, fl, SFadd, SFsub.
  rewrite Hmin, Hal.
  change (fst (shl_align (shift 1 52) (-52) (-52))) with (shift 1 52).
  rewrite (shift_value 1 52) by lia.
  split; destruct s; unfold cond_Zopp;
    apply (f_equal (fun m => binary_normalize prec emax m (-52) false)); ring.
Qed.

Lemma num_succ (z : Z) :
  - 2 ^ 53 <= z < 2 ^ 53 ->
  increment (num z) = num (z + 1).
Proof.
  unfold increment; intros Hz.
  destruct (Z.eq_dec z (2 ^ 53 - 1)) as [-> | Hmax]; [reflexivity |].
  destruct (Z.eq_dec z (- 2 ^ 53)) as [-> | Hlow]; [reflexivity |].
  rewrite (num_fl z) by lia.
  destruct z as [| q | q].
  - reflexivity.
  - rewrite (proj1 (add_one_fl false q ltac:(apply digits2_bound; lia))).
    apply num_scaled. simpl cond_Zopp. lia.
  - rewrite (proj1 (add_one_fl true q ltac:(apply digits2_bound; lia))).
    apply num_scaled. simpl cond_Zopp. lia.
Qed.

Lemma num_pred (z : Z) :
  - 2 ^ 53 < z <= 2 ^ 53 ->
  decrement (num z) = num (z - 1).
Proof.
  unfold decrement; intros Hz.
  destruct (Z.eq_dec z (- (2 ^ 53 - 1))) as [-> | Hmin]; [reflexivity |].
  destruct (Z.eq_dec z (2 ^ 53)) as [-> | Hhigh]; [reflexivity |].
  rewrite (num_fl z) by lia.
  destruct z as [| q | q].
  - reflexivity.
  - rewrite (proj2 (add_one_fl false q ltac:(apply digits2_bound; lia))).
    apply num_scaled. simpl cond_Zopp. lia.
  - rewrite (proj2 (add_one_fl true q ltac:(apply digits2_bound; lia))).
    apply num_scaled. simpl cond_Zopp. lia.
Qed.

Lemma integer_value_fl (s : bool) (q : positive) :
  Zpos (digits2_pos q) <= 53 ->
  integer_value (fl s q) = Some (cond_Zopp s (Zpos q)).
Proof.
  intros Hd.
  unfold fl, integer_value.
  destruct (Zpos (digits2_pos q) - 53) as [| k | k] eqn:Hk; [| lia |].
  - replace (53 - Zpos (digits2_pos q)) with 0 by lia.
    simpl shift. now rewrite Z.pow_0_r, Z.mul_1_r.
  - replace (53 - Zpos (digits2_pos q)) with (Zpos k) by lia.
    rewrite shift_value by lia.
    rewrite Z.mod_mul by lia. simpl Z.eqb.
    now rewrite Z.div_mul by lia.
Qed.

(** [num] is exact up to [2^53] in magnitude: the number denotes the integer
    it was made from, so different integers give different numbers. *)
Lemma integer_value_num (z : Z) :
  - 2 ^ 53 <= z <= 2 ^ 53 -> integer_value (num z) = Some z.
Proof.
  intros Hz.
  destruct (Z.eq_dec z (2 ^ 53)) as [-> | Hhi]; [reflexivity |].
  destruct (Z.eq_dec z (- 2 ^ 53)) as [-> | Hlo]; [reflexivity |].
  rewrite num_fl by lia.
  destruct z as [| q | q].
  - reflexivity.
  - apply (integer_value_fl false). apply digits2_bound; lia.
  - apply (integer_value_fl true). apply digits2_bound; lia.
Qed.

(** ** advance *)

(** C5, as the code has it: with the orientation one of the four names and
    the position set, [advance] completes without an error, keeps the
    orientation and replaces one coordinate by its [++] or [--]: north
    increments [y], east increments [x], south decrements [y], west
    decrements [x].  When the coordinates are integers of magnitude at most
    [2^53 - 1] that is exactly one unit: north to [(x, y+1)], east to
    [(x+1, y)], south to [(x, y-1)], west to [(x-1, y)]. *)
Theorem advance_one_unit (this : Robot) (a b : number) :
  coords this = Some (a, b) ->
  one_of_four_names (orientation this) ->
  (exists r, fst (advance this) = Normal r)
  /\ orientation (snd (advance this)) = orientation this
  /\ (orientation this = VString "north" ->
      coords (snd (advance this)) = Some (a, increment b))
  /\ (orientation this = VString "east" ->
      coords (snd (advance this)) = Some (increment a, b))
  /\ (orientation this = VString "south" ->
      coords (snd (advance this)) = Some (a, decrement b))
  /\ (orientation this = VString "west" ->
      coords (snd (advance this)) = Some (decrement a, b))
  /\ (forall x y : Z,
         a = num x -> b = num y -> safe_integer x -> safe_integer y ->
         (orientation this = VString "north" ->
          coords (snd (advance this)) = Some (num x, num (y + 1)))
         /\ (orientation this = VString "east" ->
             coords (snd (advance this)) = Some (num (x + 1), num y))
         /\ (orientation this = VString "south" ->
             coords (snd (advance this)) = Some (num x, num (y - 1)))
         /\ (orientation this = VString "west" ->
             coords (snd (advance this)) = Some (num (x - 1), num y))).
Proof.
  destruct this as [o c]; cbn [coords orientation].
  intros -> Ho.
  assert (Hn : o = VString "north" ->
               coords (snd (advance {| orientation := o; coords := Some (a, b) |}))
               = Some (a, increment b))
    by (intros ->; reflexivity).
  assert (He : o = VString "east" ->
               coords (snd (advance {| orientation := o; coords := Some (a, b) |}))
               = Some (increment a, b))
    by (intros ->; reflexivity).
  assert (Hs : o = VString "south" ->
               coords (snd (advance {| orientation := o; coords := Some (a, b) |}))
               = Some (a, decrement b))
    by (intros ->; reflexivity).
  assert (Hw : o = VString "west" ->
               coords (snd (advance {| orientation := o; coords := Some (a, b) |}))
               = Some (decrement a, b))
    by (intros ->; reflexivity).
  split; [four_names Ho; subst o; eexists; reflexivity |].
  split; [four_names Ho; subst o; reflexivity |].
  repeat split; try assumption; intros E; subst a b.
  - rewrite <- num_succ by (unfold safe_integer in *; lia). auto.
  - rewrite <- num_succ by (unfold safe_integer in *; lia). auto.
  - rewrite <- num_pred by (unfold safe_integer in *; lia). auto.
  - rewrite <- num_pred by (unfold safe_integer in *; lia). auto.
Qed.

Lemma advance_one_unit_witness :
  coords (snd (advance {| orientation := VString "west";
                          coords := Some (num 3, num (-7)) |}))
  = Some (num (3 - 1), num (-7)).
Proof.
  destruct (advance_one_unit
              {| orientation := VString "west";
                 coords := Some (num 3, num (-7)) |}
              (num 3) (num (-7)) eq_refl
              (or_intror (or_intror (or_intror eq_refl))))
    as (_ & _ & _ & _ & _ & _ & H).
  apply (H 3 (-7)).
  - reflexivity.
  - reflexivity.
  - unfold safe_integer. lia.
  - unfold safe_integer. lia.
  - reflexivity.
Defined.

(** C5 fails as stated: [place] accepts [x = 2^53]; facing east from there,
    [advance] completes and the position is what it was, since the double
    nearest to [2^53 + 1] is [2^53]: the robot has moved zero units, not
    one.  From [2^53 + 2] one [advance] lands on [2^53 + 4]. *)
Lemma advance_far_east_stays :
  place (VObject [("x", VNumber (num (2 ^ 53))); ("y", VNumber (num 0));
                  ("direction", VString "east")]) new_Robot
  = (Normal tt, far_east_robot)
  /\ advance far_east_robot = (Normal (OldCell (num (2 ^ 53))), far_east_robot)
  /\ option_map (fun c => integer_value (fst c)) (coords far_east_robot)
     = Some (Some (2 ^ 53))
  /\ option_map (fun c => integer_value (fst c))
       (coords (snd (advance far_east_robot)))
     <> Some (Some (2 ^ 53 + 1))
  /\ option_map (fun c => (integer_value (fst c), integer_value (snd c)))
       (coords (snd (advance
                       {| orientation := VString "east";
                          coords := Some (num (2 ^ 53 + 2), num 0) |})))
     = Some (Some (2 ^ 53 + 4), Some 0).
Proof.
  repeat split. discriminate.
Qed.

(** C9: with the orientation unset, [advance] raises nothing, takes the
    default branch, returns [this.coords] and leaves the receiver as it
    was. *)
Theorem advance_unset_orientation (this : Robot) :
  orientation this = VUndefined ->
  advance this = (Normal (Coords (coords this)), this).
Proof.
  destruct this as [o c]; simpl.
  intros ->; reflexivity.
Qed.

Lemma advance_unset_orientation_witness :
  advance new_Robot = (Normal (Coords None), new_Robot)
  /\ advance {| orientation := VUndefined; coords := Some (num 4, num 5) |}
     = (Normal (Coords (Some (num 4, num 5))),
        {| orientation := VUndefined; coords := Some (num 4, num 5) |}).
Proof.
  split.
  - apply (advance_unset_orientation new_Robot); reflexivity.
  - apply (advance_unset_orientation
             {| orientation := VUndefined; coords := Some (num 4, num 5) |});
      reflexivity.
Defined.

(** ** Rotation *)

(** C6: from each of the four orientations, [turnRight] then [turnLeft], and
    [turnLeft] then [turnRight], come back to the receiver they started from;
    so do four [turnRight]s and four [turnLeft]s; no turn touches the
    position. *)
Theorem turn_round_trips (this : Robot) :
  one_of_four_names (orientation this) ->
  (turnRight ;;; turnLeft) this = (Normal tt, this)
  /\ (turnLeft ;;; turnRight) this = (Normal tt, this)
  /\ (turnRight ;;; turnRight ;;; turnRight ;;; turnRight) this
     = (Normal tt, this)
  /\ (turnLeft ;;; turnLeft ;;; turnLeft ;;; turnLeft) this
     = (Normal tt, this)
  /\ (forall that : Robot,
        coords (snd (turnRight that)) = coords that
        /\ coords (snd (turnLeft that)) = coords that).
Proof.
  intros Ho.
  destruct this as [o c]; simpl in Ho.
  repeat split; try apply turn_coords;
    four_names Ho; subst o; reflexivity.
Qed.

Lemma turn_round_trips_witness :
  (turnRight ;;; turnLeft)
    {| orientation := VString "west"; coords := Some (num 1, num 2) |}
  = (Normal tt,
     {| orientation := VString "west"; coords := Some (num 1, num 2) |}).
Proof.
  apply (turn_round_trips
           {| orientation := VString "west"; coords := Some (num 1, num 2) |}).
  right; right; right; reflexivity.
Defined.

(** C10: with the orientation unset, [indexOf] gives [-1]; [(-1 + 1) % 4] is
    [0] and [(-1 + 3) % 4] is [2]; so [turnRight] stores ['north'] and
    [turnLeft] stores ['south'], neither raising an error. *)
Theorem turn_unset_orientation (this : Robot) :
  orientation this = VUndefined ->
  indexOf directions (orientation this) = -1
  /\ Z.rem (-1 + 1) (Z.of_nat (List.length directions)) = 0
  /\ Z.rem (-1 + 3) (Z.of_nat (List.length directions)) = 2
  /\ turnRight this
     = (Normal tt, {| orientation := VString "north"; coords := coords this |})
  /\ turnLeft this
     = (Normal tt, {| orientation := VString "south"; coords := coords this |}).
Proof.
  destruct this as [o c]; simpl.
  intros ->; repeat split.
Qed.

Lemma turn_unset_orientation_witness :
  turnRight new_Robot
  = (Normal tt, {| orientation := VString "north"; coords := None |})
  /\ turnLeft new_Robot
     = (Normal tt, {| orientation := VString "south"; coords := None |}).
Proof.
  split; apply (turn_unset_orientation new_Robot); reflexivity.
Defined.

(** ** The orientation invariant *)

Lemma place_keeps_names (placement : value) (this : Robot) :
  one_of_four_names (orientation this) ->
  one_of_four_names (orientation (snd (place placement this))).
Proof.
  intros Hthis.
  unfold place.
  destruct (negb (validateObject placement)); [exact Hthis |].
  destruct (Object_keys_length placement =? 0)%nat; [exact Hthis |].
  unfold bind.
  destruct (at_ (get_prop placement "x") (get_prop placement "y") this)
    as [[[] | e] this'] eqn:Hat;
    pose proof (at_orientation (get_prop placement "x")
                  (get_prop placement "y") this) as Hor;
    rewrite Hat in Hor; simpl in Hor.
  - apply orient_keeps_names. now rewrite Hor.
  - simpl. now rewrite Hor.
Qed.

Lemma call_method_keeps_names (instruction : value) (this : Robot) :
  one_of_four_names (orientation this) ->
  one_of_four_names (orientation (snd (call_method instruction this))).
Proof.
  intros Hthis.
  unfold call_method.
  destruct (instruction === "advance").
  - unfold bind.
    pose proof (advance_orientation this) as Hor.
    destruct (advance this) as [[r | e] this']; simpl in *; now rewrite Hor.
  - destruct (instruction === "turnLeft"); [now apply turn_keeps_names |].
    destruct (instruction === "turnRight"); [now apply turn_keeps_names |].
    exact Hthis.
Qed.

Lemma forEach_call_method_keeps_names (l : list value) (this : Robot) :
  one_of_four_names (orientation this) ->
  one_of_four_names
    (orientation (snd (forEach l (fun i => call_method i) this))).
Proof.
  revert this.
  induction l as [| i l IH]; intros this Hthis; simpl.
  - exact Hthis.
  - unfold bind.
    pose proof (call_method_keeps_names i this Hthis) as Hi.
    destruct (call_method i this) as [[[] | e] this']; simpl in *.
    + now apply IH.
    + exact Hi.
Qed.

Lemma evaluate_keeps_names (instrs : value) (this : Robot) :
  one_of_four_names (orientation this) ->
  one_of_four_names (orientation (snd (evaluate instrs this))).
Proof.
  intros Hthis.
  unfold evaluate, bind, lift.
  destruct (instructions instrs) as [l | e].
  - now apply forEach_call_method_keeps_names.
  - exact Hthis.
Qed.

Lemma perform_keeps_names (op : operation) (this : Robot) :
  one_of_four_names (orientation this) ->
  one_of_four_names (orientation (snd (perform op this))).
Proof.
  intros Hthis.
  destruct op; simpl.
  - now apply orient_keeps_names.
  - now apply turn_keeps_names.
  - now apply turn_keeps_names.
  - unfold bind.
    pose proof (advance_orientation this) as Hor.
    destruct (advance this) as [[r | e] this']; simpl in *; now rewrite Hor.
  - now apply place_keeps_names.
  - now apply evaluate_keeps_names.
Qed.

(** C8: once the orientation is one of the four names, it is one of the four
    names after every later operation ([orient], [turnLeft], [turnRight],
    [advance], [place], [evaluate], with any arguments), whether the
    operation completes or throws, and so after any sequence of them. *)
Theorem orientation_stays_valid (this : Robot) (ops : list operation) :
  one_of_four_names (orientation this) ->
  (forall op : operation,
      one_of_four_names (orientation (snd (perform op this))))
  /\ one_of_four_names (orientation (perform_all ops this)).
Proof.
  intros Hthis; split.
  - intros op. now apply perform_keeps_names.
  - revert this Hthis.
    induction ops as [| op ops IH]; intros this Hthis; simpl.
    + exact Hthis.
    + apply IH. now apply perform_keeps_names.
Qed.

Lemma orientation_stays_valid_witness :
  one_of_four_names
    (orientation
       (perform_all
          [OpPlace (VObject [("x", VNumber (num 5)); ("y", VNumber NaN);
                             ("direction", VString "up")]);
           OpEvaluate (VString "RAl"); OpOrient VNull; OpTurnLeft]
          {| orientation := VString "east"; coords := None |})).
Proof.
  apply (orientation_stays_valid
           {| orientation := VString "east"; coords := None |}).
  right; left; reflexivity.
Defined.

(** ** Decoding *)

Lemma class_ARL_toUpperCase_char (c : ascii) :
  class_ARL (toUpperCase_char c) = true ->
  In c ["A"; "L"; "R"; "a"; "l"; "r"]%char.
Proof.
  destruct c as [[] [] [] [] [] [] [] []]; vm_compute; intros H;
    try discriminate H; auto 8.
Qed.

Lemma all_class_ARL_toUpperCase (s : string) :
  all_class_ARL (toUpperCase s) = true ->
  forall c, In c (list_ascii_of_string s) ->
            In c ["A"; "L"; "R"; "a"; "l"; "r"]%char.
Proof.
  induction s as [| a s IH]; simpl.
  - intros _ c [].
  - rewrite andb_true_iff. intros [Ha Hs] c [<- | Hc].
    + now apply class_ARL_toUpperCase_char.
    + now apply IH.
Qed.

Lemma test_ARL_plus_all (s : string) :
  test_ARL_plus s = true -> all_class_ARL s = true.
Proof.
  destruct s; [discriminate | trivial].
Qed.

(** C7: an argument that is not a string, or is the empty string, or holds a
    character other than A, L, R in either case, makes [instructions] throw
    [InvalidInputError]; nothing is returned. *)
Theorem instructions_rejects (instrs : value) :
  (forall s, instrs <> VString s)
  \/ instrs = VString EmptyString
  \/ (exists s c, instrs = VString s
                  /\ In c (list_ascii_of_string s)
                  /\ ~ In c ["A"; "L"; "R"; "a"; "l"; "r"]%char) ->
  instructions instrs = Throw (InvalidInputError instructions_message)
  /\ forall l, instructions instrs <> Normal l.
Proof.
  intros H.
  assert (E : instructions instrs
              = Throw (InvalidInputError instructions_message)).
  { destruct H as [H | [-> | (s & c & -> & Hc & Hbad)]].
    - destruct instrs; try reflexivity. now contradiction (H s).
    - reflexivity.
    - unfold instructions; simpl.
      destruct (test_ARL_plus (toUpperCase s)) eqn:Ht; [| reflexivity].
      exfalso; apply Hbad.
      apply (all_class_ARL_toUpperCase s); [| exact Hc].
      now apply test_ARL_plus_all. }
  rewrite E; split; [reflexivity | discriminate].
Qed.

Lemma instructions_rejects_witness :
  instructions (VString "XYZ") = Throw (InvalidInputError instructions_message)
  /\ instructions (VString EmptyString)
     = Throw (InvalidInputError instructions_message)
  /\ instructions (VNumber (num 7))
     = Throw (InvalidInputError instructions_message).
Proof.
  split; [| split].
  - apply (instructions_rejects (VString "XYZ")).
    right; right. exists "XYZ", "X"%char.
    split; [reflexivity |]. split; [left; reflexivity |].
    simpl. intros [H | [H | [H | [H | [H | [H | []]]]]]]; discriminate H.
  - apply (instructions_rejects (VString EmptyString)).
    right; left; reflexivity.
  - apply (instructions_rejects (VNumber (num 7))).
    left; intros s; discriminate.
Defined.

(** C2: the lower-case string ["laar"] passes the validation of
    [instructions], which tests the upper-cased copy, but the table lookup
    uses the characters as written: the result holds four [undefined]
    elements instead of the names of [turnLeft], [advance], [advance],
    [turnRight], and [evaluate] on it throws a [TypeError] at the first
    element. *)
Theorem instructions_lower_case_undefined :
  instructions (VString "laar")
  = Normal [VUndefined; VUndefined; VUndefined; VUndefined]
  /\ instructions (VString "LAAR")
     = Normal [VString "turnLeft"; VString "advance"; VString "advance";
               VString "turnRight"]
  /\ evaluate (VString "laar") (placed (on_lattice (North, (0, 0))))
     = (Throw TypeError, placed (on_lattice (North, (0, 0)))).
Proof.
  repeat split.
Qed.

(** Upper-case command strings decode to the method names of their
    instructions. *)
Lemma toUpperCase_command_string (prog : list Instruction) :
  toUpperCase (command_string prog) = command_string prog.
Proof.
  unfold command_string.
  induction prog as [| i prog IH]; simpl; [reflexivity |].
  rewrite IH. now destruct i.
Qed.

Lemma all_class_ARL_command_string (prog : list Instruction) :
  all_class_ARL (command_string prog) = true.
Proof.
  unfold command_string.
  induction prog as [| i prog IH]; simpl; [reflexivity |].
  rewrite IH. now destruct i.
Qed.

Lemma spread_command_string (prog : list Instruction) :
  map (fun instruction => commands_get instruction)
      (spread (command_string prog))
  = map method_name prog.
Proof.
  unfold command_string, spread.
  induction prog as [| i prog IH]; simpl; [reflexivity |].
  rewrite IH. now destruct i.
Qed.

Lemma instructions_command_string (prog : list Instruction) :
  prog <> [] ->
  instructions (VString (command_string prog)) = Normal (map method_name prog).
Proof.
  intros Hne.
  unfold instructions; simpl.
  rewrite toUpperCase_command_string.
  assert (Ht : test_ARL_plus (command_string prog) = true).
  { destruct prog as [| i prog]; [contradiction |].
    change (all_class_ARL (command_string (i :: prog)) = true).
    apply all_class_ARL_command_string. }
  rewrite Ht; simpl.
  now rewrite spread_command_string.
Qed.

(** ** evaluate *)

Lemma call_method_method_name (i : Instruction) (this : Robot) :
  call_method (method_name i) this = instruction_method i this.
Proof.
  destruct i; reflexivity.
Qed.

Lemma instruction_method_completes (i : Instruction) (this : Robot) :
  coords this <> None ->
  fst (instruction_method i this) = Normal tt
  /\ coords (snd (instruction_method i this)) <> None.
Proof.
  intros H.
  destruct i; simpl.
  - unfold bind.
    destruct (advance_with_position this H) as [r Hr].
    pose proof (advance_coords_set this H) as Hc.
    destruct (advance this) as [[r' | e] this']; simpl in *;
      [now split | discriminate Hr].
  - split; [apply turn_completes; reflexivity |].
    unfold turnLeft. now rewrite turn_coords.
  - split; [apply turn_completes; reflexivity |].
    unfold turnRight. now rewrite turn_coords.
Qed.

Lemma run_methods_cons (i : Instruction) (prog : list Instruction) (this : Robot) :
  run_methods (i :: prog) this
  = run_methods prog (snd (instruction_method i this)).
Proof.
  reflexivity.
Qed.

Lemma run_methods_app (done rest : list Instruction) (this : Robot) :
  run_methods (done ++ rest) this = run_methods rest (run_methods done this).
Proof.
  unfold run_methods. apply fold_left_app.
Qed.

Lemma run_methods_coords_set (prog : list Instruction) (this : Robot) :
  coords this <> None -> coords (run_methods prog this) <> None.
Proof.
  revert this.
  induction prog as [| i prog IH]; intros this H; [exact H |].
  rewrite run_methods_cons. apply IH.
  now apply instruction_method_completes.
Qed.

Lemma forEach_run_methods (prog : list Instruction) (this : Robot) :
  coords this <> None ->
  forEach (map method_name prog) (fun i => call_method i) this
  = (Normal tt, run_methods prog this).
Proof.
  revert this.
  induction prog as [| i prog IH]; intros this H; [reflexivity |].
  rewrite run_methods_cons.
  destruct (instruction_method_completes i this H) as [Hc Hs].
  simpl. unfold bind. rewrite call_method_method_name.
  destruct (instruction_method i this) as [[[] | e] this']; simpl in *;
    [now apply IH | discriminate Hc].
Qed.

(** C3, as the code has it: when decoding fails, [evaluate] throws the
    decoder's error and the receiver is as it was before the call; on a
    robot whose position is set, whatever its orientation, and a non-empty
    string of upper-case A, L, R, [evaluate] completes: every instruction's
    method has run, in order, each completing normally. *)
Theorem evaluate_decode_failure_or_full_run :
  (forall (instrs : value) (this : Robot) (e : error),
      instructions instrs = Throw e ->
      evaluate instrs this = (Throw e, this))
  /\ (forall (prog : list Instruction) (this : Robot),
         prog <> [] ->
         coords this <> None ->
         evaluate (VString (command_string prog)) this
         = (Normal tt, run_methods prog this)
         /\ forall (done rest : list Instruction) (i : Instruction),
             prog = (done ++ i :: rest)%list ->
             fst (instruction_method i (run_methods done this)) = Normal tt).
Proof.
  split.
  - intros instrs this e He.
    unfold evaluate, bind, lift. now rewrite He.
  - intros prog this Hne Hc. split.
    + unfold evaluate, bind, lift.
      rewrite (instructions_command_string prog Hne).
      now apply forEach_run_methods.
    + intros done rest i _.
      apply instruction_method_completes.
      now apply run_methods_coords_set.
Qed.

Lemma evaluate_decode_failure_or_full_run_witness :
  evaluate (VString "LAXR") (placed (on_lattice (North, (0, 0))))
  = (Throw (InvalidInputError instructions_message),
     placed (on_lattice (North, (0, 0))))
  /\ evaluate (VString "LAAR")
       {| orientation := VUndefined; coords := Some (num 0, num 0) |}
     = (Normal tt,
        {| orientation := VString "west"; coords := Some (num 0, num (-2)) |}).
Proof.
  split.
  - apply (proj1 evaluate_decode_failure_or_full_run
             (VString "LAXR") (placed (on_lattice (North, (0, 0))))).
    reflexivity.
  - refine (proj1 (proj2 evaluate_decode_failure_or_full_run
                     [TurnLeft; Advance; Advance; TurnRight]
                     {| orientation := VUndefined;
                        coords := Some (num 0, num 0) |} _ _));
      discriminate.
Defined.

(** C3 fails as stated: on a new robot the string ["RA"] decodes to two
    instructions; [turnRight] runs and stores ['north'], then [advance] reads
    a cell of the unset [coords] and throws, so [evaluate] stops after one of
    the two instructions with the orientation changed. *)
Lemma evaluate_stops_partway :
  instructions (VString "RA") = Normal [VString "turnRight"; VString "advance"]
  /\ call_method (VString "turnRight") new_Robot
     = (Normal tt, {| orientation := VString "north"; coords := None |})
  /\ call_method (VString "advance")
       {| orientation := VString "north"; coords := None |}
     = (Throw TypeError, {| orientation := VString "north"; coords := None |})
  /\ evaluate (VString "RA") new_Robot
     = (Throw TypeError, {| orientation := VString "north"; coords := None |})
  /\ orientation (snd (evaluate (VString "RA") new_Robot))
     <> orientation new_Robot.
Proof.
  repeat split. discriminate.
Qed.

(** ** place and the kinds of error *)

Lemma at_cases (x y : value) (this : Robot) :
  ((validateNumber x = false \/ validateNumber y = false)
   /\ at_ x y this
      = (Throw (InvalidInputError "Must enter valid coordinates"), this))
  \/ (validateNumber x = true /\ validateNumber y = true
      /\ at_ x y this
         = (Normal tt,
            {| orientation := orientation this;
               coords := Some (number_of x, number_of y) |})).
Proof.
  unfold at_.
  destruct (validateNumber x), (validateNumber y); simpl; auto.
Qed.

(** C1, as the code has it: a failing [place] never changes the orientation.
    An argument that is not a plain object, or has no keys, throws a plain
    [Error] and writes nothing; a coordinate that is not a valid number
    throws [InvalidInputError] and writes nothing; with valid coordinates
    and an unrecognized direction, [at] has already stored the new position
    when [orient] throws [InvalidInputError]. *)
Theorem place_failure_cases (placement : value) (this : Robot) :
  let x := get_prop placement "x" in
  let y := get_prop placement "y" in
  let direction := get_prop placement "direction" in
  (validateObject placement = false ->
   place placement this = (Throw (Error "Invalid placement data type"), this))
  /\ (validateObject placement = true ->
      Object_keys_length placement = 0%nat ->
      place placement this
      = (Throw (Error "Placement data must not be empty"), this))
  /\ (validateObject placement = true ->
      Object_keys_length placement <> 0%nat ->
      validateNumber x = false \/ validateNumber y = false ->
      place placement this
      = (Throw (InvalidInputError "Must enter valid coordinates"), this))
  /\ (validateObject placement = true ->
      Object_keys_length placement <> 0%nat ->
      validateNumber x = true ->
      validateNumber y = true ->
      includes directions direction = false ->
      place placement this
      = (Throw (InvalidInputError "Must enter a valid orientation"),
         {| orientation := orientation this;
            coords := Some (number_of x, number_of y) |})).
Proof.
  intros x y direction.
  unfold place; fold x y direction.
  repeat split.
  - intros ->; reflexivity.
  - intros -> ->; reflexivity.
  - intros -> Hk Hxy.
    apply Nat.eqb_neq in Hk; rewrite Hk; simpl.
    unfold bind.
    destruct (at_cases x y this) as [[_ ->] | (Hx & Hy & _)];
      [reflexivity |].
    destruct Hxy as [H | H]; congruence.
  - intros -> Hk Hx Hy Hd.
    apply Nat.eqb_neq in Hk; rewrite Hk; simpl.
    unfold bind.
    destruct (at_cases x y this) as [[[H | H] _] | (_ & _ & ->)];
      try congruence.
    unfold orient; rewrite Hd; reflexivity.
Qed.

Lemma place_failure_cases_witness :
  place bad_direction_placement sample_robot
  = (Throw (InvalidInputError "Must enter a valid orientation"),
     {| orientation := VString "north"; coords := Some (num 1, num 2) |})
  /\ place (VObject [("x", VNumber (num 1)); ("y", VString "2");
                     ("direction", VString "east")]) sample_robot
     = (Throw (InvalidInputError "Must enter valid coordinates"), sample_robot).
Proof.
  split.
  - apply (place_failure_cases bad_direction_placement sample_robot);
      try reflexivity.
    discriminate.
  - apply (place_failure_cases
             (VObject [("x", VNumber (num 1)); ("y", VString "2");
                       ("direction", VString "east")]) sample_robot);
      try reflexivity.
    + discriminate.
    + right; reflexivity.
Defined.

(** C1 fails as stated: the robot placed at [(0, 0)] facing north is asked to
    [place] with valid coordinates [(1, 2)] and the unknown direction ['up'];
    the call throws [InvalidInputError], and the stored position is now
    [(1, 2)]. *)
Lemma place_bad_direction_moves_robot :
  place sample_placement new_Robot = (Normal tt, sample_robot)
  /\ place bad_direction_placement sample_robot
     = (Throw (InvalidInputError "Must enter a valid orientation"),
        {| orientation := VString "north"; coords := Some (num 1, num 2) |})
  /\ coords (snd (place bad_direction_placement sample_robot))
     <> coords sample_robot.
Proof.
  repeat split. discriminate.
Qed.

Lemma advance_throws (this this' : Robot) (e : error) :
  advance this = (Throw e, this') -> e = TypeError.
Proof.
  unfold advance, bind, get_this, coords_postfix, ret.
  destruct this as [o [[x y] |]]; cbn;
    repeat match goal with
           | |- context [if ?b then _ else _] => destruct b
           end;
    intros H; inversion H; reflexivity.
Qed.

Lemma call_method_throws (instruction : value) (this this' : Robot) (e : error) :
  call_method instruction this = (Throw e, this') -> e = TypeError.
Proof.
  unfold call_method.
  destruct (instruction === "advance").
  - unfold bind.
    destruct (advance this) as [[r | e0] this0] eqn:E; cbn;
      intros H; inversion H; subst.
    now apply (advance_throws this this').
  - destruct (instruction === "turnLeft");
      [| destruct (instruction === "turnRight")].
    + intros H.
      pose proof (turn_completes (VString "left") this eq_refl) as Hc.
      unfold turnLeft in H. rewrite H in Hc. discriminate Hc.
    + intros H.
      pose proof (turn_completes (VString "right") this eq_refl) as Hc.
      unfold turnRight in H. rewrite H in Hc. discriminate Hc.
    + intros H; inversion H; reflexivity.
Qed.

Lemma forEach_call_method_throws (l : list value) (this this' : Robot) (e : error) :
  forEach l (fun i => call_method i) this = (Throw e, this') -> e = TypeError.
Proof.
  revert this.
  induction l as [| i l IH]; intros this; simpl.
  - intros H; inversion H.
  - unfold bind.
    destruct (call_method i this) as [[[] | e0] this0] eqn:Hi.
    + apply IH.
    + intros H; inversion H; subst.
      now apply (call_method_throws i this this').
Qed.

(** C4, as the code has it: what [orient], [at] and [instructions] throw is
    an [InvalidInputError]; [place] throws a plain [Error], not an
    [InvalidInputError], when its argument is not a plain object or has no
    keys, and an [InvalidInputError] otherwise; [evaluate] throws the
    decoder's [InvalidInputError] when decoding fails, and any other error it
    throws is a [TypeError] of the runtime. *)
Theorem validation_error_kinds :
  (forall (o : value) (this this' : Robot) (e : error),
      orient o this = (Throw e, this') -> is_InvalidInput e = true)
  /\ (forall (x y : value) (this this' : Robot) (e : error),
         at_ x y this = (Throw e, this') -> is_InvalidInput e = true)
  /\ (forall (instrs : value) (e : error),
         instructions instrs = Throw e -> is_InvalidInput e = true)
  /\ (forall (placement : value) (this this' : Robot) (e : error),
         place placement this = (Throw e, this') ->
         if validateObject placement
            && negb (Object_keys_length placement =? 0)%nat
         then is_InvalidInput e = true
         else e = Error "Invalid placement data type"
              \/ e = Error "Placement data must not be empty")
  /\ (forall (instrs : value) (this this' : Robot) (e : error),
         evaluate instrs this = (Throw e, this') ->
         (instructions instrs = Throw e /\ is_InvalidInput e = true)
         \/ e = TypeError).
Proof.
  assert (Horient : forall o this this' e,
             orient o this = (Throw e, this') -> is_InvalidInput e = true).
  { intros o this this' e H.
    destruct (orient_cases o this) as [[_ E] | [_ E]];
      rewrite E in H; inversion H; reflexivity. }
  assert (Hat : forall x y this this' e,
             at_ x y this = (Throw e, this') -> is_InvalidInput e = true).
  { intros x y this this' e H.
    destruct (at_cases x y this) as [[_ E] | (_ & _ & E)];
      rewrite E in H; inversion H; reflexivity. }
  assert (Hdec : forall instrs e,
             instructions instrs = Throw e -> is_InvalidInput e = true).
  { intros instrs e. unfold instructions.
    destruct (negb (validateString instrs)
              || negb (test_ARL_plus (toUpperCase (string_of instrs))));
      intros H; inversion H; reflexivity. }
  repeat split; try assumption.
  - intros placement this this' e.
    unfold place.
    destruct (validateObject placement); simpl.
    + destruct (Object_keys_length placement =? 0)%nat; simpl.
      * intros H; inversion H; auto.
      * unfold bind.
        destruct (at_ (get_prop placement "x") (get_prop placement "y") this)
          as [[[] | e0] this0] eqn:E.
        -- apply Horient.
        -- intros H; inversion H; subst. now apply (Hat _ _ _ _ _ E).
    + intros H; inversion H; auto.
  - intros instrs this this' e.
    unfold evaluate, bind, lift.
    destruct (instructions instrs) as [l | e0] eqn:E.
    + intros H; right. now apply (forEach_call_method_throws l this this').
    + intros H; inversion H; subst. left; split; [reflexivity |].
      now apply (Hdec instrs).
Qed.

Lemma validation_error_kinds_witness :
  is_InvalidInput (InvalidInputError "Must enter a valid orientation") = true
  /\ (Error "Invalid placement data type" = Error "Invalid placement data type"
      \/ Error "Invalid placement data type"
         = Error "Placement data must not be empty").
Proof.
  split.
  - apply (proj1 validation_error_kinds (VNumber (num 3)) new_Robot new_Robot).
    reflexivity.
  - apply (proj1 (proj2 (proj2 (proj2 validation_error_kinds)))
             (VArray [VNumber (num 1)]) sample_robot sample_robot).
    reflexivity.
Defined.

(** C4 fails as stated: [place(null)], [place([1])] and [place({})] throw a
    plain [Error], which is not an [InvalidInputError]. *)
Lemma place_throws_plain_Error :
  place VNull sample_robot
  = (Throw (Error "Invalid placement data type"), sample_robot)
  /\ place (VArray [VNumber (num 1)]) sample_robot
     = (Throw (Error "Invalid placement data type"), sample_robot)
  /\ place (VObject []) sample_robot
     = (Throw (Error "Placement data must not be empty"), sample_robot)
  /\ is_InvalidInput (Error "Invalid placement data type") = false
  /\ is_InvalidInput (Error "Placement data must not be empty") = false.
Proof.
  repeat split.
Qed.

(** * Further properties of the methods *)

(** ** place, at, orient and the getters *)

(** [orient] completes exactly on the four lower-case names; it then stores
    the name and keeps the position.  Any other argument (another string, a
    name in another case, a value that is not a string) throws and writes
    nothing. *)
Theorem orient_accepts_iff (o : value) (this : Robot) :
  (one_of_four_names o ->
   orient o this = (Normal tt, {| orientation := o; coords := coords this |}))
  /\ (~ one_of_four_names o ->
      orient o this
      = (Throw (InvalidInputError "Must enter a valid orientation"), this))
  /\ (forall this', orient o this = (Normal tt, this') -> one_of_four_names o).
Proof.
  destruct (orient_cases o this) as [[Ho E] | [Ho E]]; rewrite E.
  - assert (Hn : ~ one_of_four_names o).
    { intros H. apply includes_directions in H. congruence. }
    repeat split; try tauto. intros this' H; discriminate H.
  - apply includes_directions in Ho.
    repeat split; tauto.
Qed.

Lemma orient_accepts_iff_witness :
  orient (VString "west") sample_robot
  = (Normal tt,
     {| orientation := VString "west"; coords := Some (num 0, num 0) |})
  /\ orient (VString "West") sample_robot
     = (Throw (InvalidInputError "Must enter a valid orientation"),
        sample_robot).
Proof.
  split.
  - apply (orient_accepts_iff (VString "west") sample_robot).
    right; right; right; reflexivity.
  - apply (orient_accepts_iff (VString "West") sample_robot).
    intros [H | [H | [H | H]]]; discriminate H.
Defined.

Lemma validateNumber_true (v : value) :
  validateNumber v = true <-> exists n, v = VNumber n /\ n <> NaN.
Proof.
  split.
  - destruct v as [| | b | n | s | l | l | c l]; try discriminate.
    destruct n; try discriminate; intros _; eexists; split;
      try reflexivity; discriminate.
  - intros (n & -> & Hn).
    destruct n; try reflexivity. now contradiction Hn.
Qed.

(** [at] completes exactly when both arguments are numbers other than [NaN];
    it then stores the pair and keeps the orientation.  With any other
    argument (a numeric string, [null], [undefined], [NaN]) it throws and
    writes nothing. *)
Theorem at_accepts_iff (x y : value) (this : Robot) :
  (forall a b : number,
      x = VNumber a -> y = VNumber b -> a <> NaN -> b <> NaN ->
      at_ x y this
      = (Normal tt, {| orientation := orientation this; coords := Some (a, b) |}))
  /\ ((forall a, x = VNumber a -> a = NaN)
      \/ (forall b, y = VNumber b -> b = NaN) ->
      at_ x y this
      = (Throw (InvalidInputError "Must enter valid coordinates"), this))
  /\ (forall this',
         at_ x y this = (Normal tt, this') ->
         exists a b, x = VNumber a /\ y = VNumber b /\ a <> NaN /\ b <> NaN).
Proof.
  repeat split.
  - intros a b -> -> Ha Hb.
    destruct (at_cases (VNumber a) (VNumber b) this)
      as [[[H | H] _] | (_ & _ & E)]; [| | exact E].
    + assert (Hv : validateNumber (VNumber a) = true)
        by (apply validateNumber_true; now exists a).
      congruence.
    + assert (Hv : validateNumber (VNumber b) = true)
        by (apply validateNumber_true; now exists b).
      congruence.
  - intros H.
    destruct (at_cases x y this) as [[_ E] | (Hx & Hy & _)]; [exact E |].
    apply validateNumber_true in Hx, Hy.
    destruct Hx as (a & Hx & Ha), Hy as (b & Hy & Hb).
    destruct H as [H | H];
      [now contradiction (Ha (H a Hx)) | now contradiction (Hb (H b Hy))].
  - intros this' H.
    destruct (at_cases x y this) as [[_ E] | (Hx & Hy & _)];
      [rewrite E in H; discriminate H |].
    apply validateNumber_true in Hx, Hy.
    destruct Hx as (a & Hx & Ha), Hy as (b & Hy & Hb). now exists a, b.
Qed.

Lemma at_accepts_iff_witness :
  at_ (VNumber (num 3)) (VNumber (num (-4))) new_Robot
  = (Normal tt,
     {| orientation := VUndefined; coords := Some (num 3, num (-4)) |})
  /\ at_ (VNumber (num 3)) (VString "4") sample_robot
     = (Throw (InvalidInputError "Must enter valid coordinates"), sample_robot)
  /\ at_ (VNumber NaN) (VNumber Infinity) sample_robot
     = (Throw (InvalidInputError "Must enter valid coordinates"), sample_robot).
Proof.
  split; [| split].
  - apply (at_accepts_iff (VNumber (num 3)) (VNumber (num (-4))) new_Robot);
      try reflexivity; discriminate.
  - apply (at_accepts_iff (VNumber (num 3)) (VString "4") sample_robot).
    right; intros b; discriminate.
  - apply (at_accepts_iff (VNumber NaN) (VNumber Infinity) sample_robot).
    left; intros a E; now injection E as <-.
Defined.

Lemma place_Normal_iff (placement : value) (this this' : Robot) :
  place placement this = (Normal tt, this')
  <-> (validateObject placement = true
       /\ Object_keys_length placement <> 0%nat
       /\ validateNumber (get_prop placement "x") = true
       /\ validateNumber (get_prop placement "y") = true
       /\ one_of_four_names (get_prop placement "direction")
       /\ this' = {| orientation := get_prop placement "direction";
                     coords := Some (number_of (get_prop placement "x"),
                                     number_of (get_prop placement "y")) |}).
Proof.
  unfold place.
  destruct (validateObject placement); simpl;
    [| split; [discriminate | intros (H & _); discriminate H]].
  destruct (Object_keys_length placement =? 0)%nat eqn:Hk; simpl.
  - apply Nat.eqb_eq in Hk.
    split; [discriminate | intros (_ & H & _); contradiction].
  - apply Nat.eqb_neq in Hk.
    unfold bind.
    destruct (at_cases (get_prop placement "x") (get_prop placement "y") this)
      as [[Hxy ->] | (Hx & Hy & ->)].
    + split; [discriminate |].
      intros (_ & _ & Hx & Hy & _). destruct Hxy; congruence.
    + destruct (orient_cases (get_prop placement "direction")
                  {| orientation := orientation this;
                     coords := Some (number_of (get_prop placement "x"),
                                     number_of (get_prop placement "y")) |})
        as [[Hd ->] | [Hd ->]]; simpl.
      * split; [discriminate |].
        intros (_ & _ & _ & _ & Hn & _).
        apply includes_directions in Hn. congruence.
      * apply includes_directions in Hd.
        split.
        -- intros H; inversion H; subst. repeat split; auto.
        -- intros (_ & _ & _ & _ & _ & ->). reflexivity.
Qed.

(** [place] completes exactly when its argument is a plain object with at
    least one key whose [x] and [y] are numbers other than [NaN] and whose
    [direction] is one of the four names; the receiver then holds exactly
    that position and orientation. *)
Theorem place_succeeds_iff (placement : value) (this this' : Robot) :
  place placement this = (Normal tt, this')
  <-> (validateObject placement = true
       /\ Object_keys_length placement <> 0%nat
       /\ validateNumber (get_prop placement "x") = true
       /\ validateNumber (get_prop placement "y") = true
       /\ one_of_four_names (get_prop placement "direction")
       /\ this' = {| orientation := get_prop placement "direction";
                     coords := Some (number_of (get_prop placement "x"),
                                     number_of (get_prop placement "y")) |}).
Proof.
  apply place_Normal_iff.
Qed.

(** After a [place] that completes, [bearing] returns the direction of the
    placement and [coordinates] its position, neither getter writes, and the
    same placement gives the same robot whatever the receiver held before. *)
Theorem place_then_getters (placement : value) (this this' : Robot) :
  place placement this = (Normal tt, this') ->
  bearing this' = (Normal (get_prop placement "direction"), this')
  /\ coordinates this'
     = (Normal (Some (number_of (get_prop placement "x"),
                      number_of (get_prop placement "y"))), this')
  /\ one_of_four_names (orientation this')
  /\ forall that : Robot, place placement that = (Normal tt, this').
Proof.
  intros H.
  pose proof H as H0.
  apply place_Normal_iff in H0.
  destruct H0 as (Ho & Hk & Hx & Hy & Hd & ->).
  repeat split; try assumption.
  intros that. apply place_Normal_iff. repeat split; assumption.
Qed.

Lemma place_then_getters_witness :
  bearing sample_robot = (Normal (VString "north"), sample_robot)
  /\ coordinates sample_robot = (Normal (Some (num 0, num 0)), sample_robot).
Proof.
  split;
    apply (place_then_getters sample_placement new_Robot sample_robot);
    reflexivity.
Defined.

(** ** Rotation and advance *)

(** [turnRight] steps through north, east, south, west, north and [turnLeft]
    through the same cycle backwards, as the state machine of the
    specification does; the position, set or not, is kept. *)
Theorem turn_follows_cycle (o : Orientation) (c : option (number * number)) :
  turnRight {| orientation := VString (spec_name o); coords := c |}
  = (Normal tt,
     {| orientation := VString (spec_name (spec_turnRight o)); coords := c |})
  /\ turnLeft {| orientation := VString (spec_name o); coords := c |}
     = (Normal tt,
        {| orientation := VString (spec_name (spec_turnLeft o)); coords := c |}).
Proof.
  destruct o; split; reflexivity.
Qed.

(** Whatever the receiver holds, [turnRight] and [turnLeft] complete: the
    index arithmetic never leaves the table.  Afterwards the orientation is
    one of the four names and the position is what it was. *)
Theorem turn_always_completes (this : Robot) :
  fst (turnRight this) = Normal tt
  /\ fst (turnLeft this) = Normal tt
  /\ one_of_four_names (orientation (snd (turnRight this)))
  /\ one_of_four_names (orientation (snd (turnLeft this)))
  /\ coords (snd (turnRight this)) = coords this
  /\ coords (snd (turnLeft this)) = coords this.
Proof.
  assert (H : forall td, validateString td = true ->
                         one_of_four_names (orientation (snd (turn td this)))).
  { intros td Htd.
    rewrite turn_unfold by assumption.
    destruct this as [o c]; unfold indexOf, one_of_four_names; simpl.
    destruct (o === "north"), (o === "east"), (o === "south"),
      (o === "west"), (td === "right"); simpl; auto. }
  repeat split;
    try (apply turn_completes; reflexivity);
    try (apply H; reflexivity);
    apply turn_coords.
Qed.

(** One [turnLeft] is three [turnRight]s and one [turnRight] is three
    [turnLeft]s, from every receiver, the orientation being set or not. *)
Theorem turn_left_is_three_rights (this : Robot) :
  turnLeft this = (turnRight ;;; turnRight ;;; turnRight) this
  /\ turnRight this = (turnLeft ;;; turnLeft ;;; turnLeft) this.
Proof.
  destruct this as [o c].
  unfold turnLeft, turnRight, bind.
  rewrite !turn_unfold by reflexivity.
  unfold indexOf; simpl.
  destruct (o === "north"), (o === "east"), (o === "south"), (o === "west");
    split; reflexivity.
Qed.

(** With the orientation set and the position unset (after [orient] or a
    turn on a new robot), [advance] throws a [TypeError] and writes
    nothing. *)
Theorem advance_without_position_throws (this : Robot) :
  coords this = None ->
  one_of_four_names (orientation this) ->
  advance this = (Throw TypeError, this).
Proof.
  destruct this as [o c]; simpl.
  intros -> Ho.
  four_names Ho; subst o; reflexivity.
Qed.

Lemma advance_without_position_throws_witness :
  (orient (VString "east") ;;; advance) new_Robot
  = (Throw TypeError, {| orientation := VString "east"; coords := None |}).
Proof.
  change ((orient (VString "east") ;;; advance) new_Robot)
    with (advance {| orientation := VString "east"; coords := None |}).
  apply (advance_without_position_throws
           {| orientation := VString "east"; coords := None |}).
  - reflexivity.
  - right; left; reflexivity.
Defined.

(** Advancing, turning round, advancing and turning round again brings a
    placed robot back to the position and orientation it started from, when
    its coordinates are integers of magnitude at most [2^53 - 1]. *)
Theorem advance_there_and_back (o : Orientation) (x y : Z) :
  safe_integer x ->
  safe_integer y ->
  (advance ;;; turnRight ;;; turnRight ;;; advance ;;; turnRight ;;; turnRight)
    (placed (on_lattice (o, (x, y))))
  = (Normal tt, placed (on_lattice (o, (x, y)))).
Proof.
  unfold safe_integer; intros Hx Hy.
  destruct o; unfold placed, on_lattice; cbn [fst snd spec_name].
  - transitivity
      (Normal tt,
       {| orientation := VString "north";
          coords := Some (num x, decrement (increment (num y))) |});
      [reflexivity |].
    rewrite num_succ, num_pred by lia.
    now replace (y + 1 - 1) with y by lia.
  - transitivity
      (Normal tt,
       {| orientation := VString "east";
          coords := Some (decrement (increment (num x)), num y) |});
      [reflexivity |].
    rewrite num_succ, num_pred by lia.
    now replace (x + 1 - 1) with x by lia.
  - transitivity
      (Normal tt,
       {| orientation := VString "south";
          coords := Some (num x, increment (decrement (num y))) |});
      [reflexivity |].
    rewrite num_pred, num_succ by lia.
    now replace (y - 1 + 1) with y by lia.
  - transitivity
      (Normal tt,
       {| orientation := VString "west";
          coords := Some (increment (decrement (num x)), num y) |});
      [reflexivity |].
    rewrite num_pred, num_succ by lia.
    now replace (x - 1 + 1) with x by lia.
Qed.

Lemma advance_there_and_back_witness :
  (advance ;;; turnRight ;;; turnRight ;;; advance ;;; turnRight ;;; turnRight)
    (placed (on_lattice (East, (2 ^ 53 - 1, -5))))
  = (Normal tt, placed (on_lattice (East, (2 ^ 53 - 1, -5)))).
Proof.
  apply (advance_there_and_back East (2 ^ 53 - 1) (-5));
    unfold safe_integer; lia.
Defined.

(** ** Decoding, again *)

Lemma class_ARL_command_letters (c : ascii) :
  In c command_letters -> class_ARL (toUpperCase_char c) = true.
Proof.
  simpl. intros [<- | [<- | [<- | [<- | [<- | [<- | []]]]]]]; reflexivity.
Qed.

Lemma all_class_ARL_command_letters (s : string) :
  (forall c, In c (list_ascii_of_string s) -> In c command_letters) ->
  all_class_ARL (toUpperCase s) = true.
Proof.
  induction s as [| a s IH]; simpl; [reflexivity |].
  intros H. apply andb_true_iff; split.
  - apply class_ARL_command_letters. apply H; now left.
  - apply IH. intros c Hc. apply H; now right.
Qed.

Lemma test_ARL_plus_toUpperCase (s : string) :
  test_ARL_plus (toUpperCase s) = true
  <-> s <> EmptyString
      /\ (forall c, In c (list_ascii_of_string s) -> In c command_letters).
Proof.
  split.
  - intros H; split.
    + intros ->; discriminate H.
    + apply all_class_ARL_toUpperCase. now apply test_ARL_plus_all.
  - intros [Hne H].
    destruct s as [| a s]; [contradiction |].
    change (all_class_ARL (toUpperCase (String a s)) = true).
    now apply all_class_ARL_command_letters.
Qed.

Lemma instructions_Normal_iff (instrs : value) (l : list value) :
  instructions instrs = Normal l
  <-> exists s, instrs = VString s
                /\ test_ARL_plus (toUpperCase s) = true
                /\ l = map (fun i => commands_get i) (spread s).
Proof.
  split.
  - unfold instructions.
    destruct instrs; simpl; try discriminate.
    destruct (test_ARL_plus (toUpperCase s)) eqn:Ht; simpl; [| discriminate].
    intros H; inversion H. now exists s.
  - intros (s & -> & Ht & ->).
    unfold instructions; simpl. now rewrite Ht.
Qed.

Lemma length_spread (s : string) :
  List.length (spread s) = String.length s.
Proof.
  unfold spread. rewrite length_map.
  induction s as [| a s IH]; simpl; congruence.
Qed.

(** [instructions] returns exactly on the non-empty strings made of the six
    letters A, L, R, a, l, r; the array it returns has one element per
    character, the table entry of that character as written. *)
Theorem instructions_accepts_iff (instrs : value) (l : list value) :
  (instructions instrs = Normal l
   <-> exists s, instrs = VString s
                 /\ s <> EmptyString
                 /\ (forall c, In c (list_ascii_of_string s) ->
                               In c command_letters)
                 /\ l = map (fun i => commands_get i) (spread s))
  /\ (instructions instrs = Normal l ->
      List.length l = String.length (string_of instrs)).
Proof.
  split; [split |].
  - intros H. apply instructions_Normal_iff in H.
    destruct H as (s & -> & Ht & ->).
    apply test_ARL_plus_toUpperCase in Ht. destruct Ht as [Hne Hc].
    exists s; auto.
  - intros (s & -> & Hne & Hc & ->).
    apply instructions_Normal_iff. exists s; repeat split.
    apply test_ARL_plus_toUpperCase; auto.
  - intros H. apply instructions_Normal_iff in H.
    destruct H as (s & -> & _ & ->).
    rewrite length_map. apply length_spread.
Qed.

Lemma instructions_accepts_iff_witness :
  List.length [VString "turnRight"; VUndefined; VString "advance"]
  = String.length (string_of (VString "RlA")).
Proof.
  apply (instructions_accepts_iff (VString "RlA")
           [VString "turnRight"; VUndefined; VString "advance"]).
  reflexivity.
Defined.

Lemma map_method_name_inj (p1 p2 : list Instruction) :
  map method_name p1 = map method_name p2 -> p1 = p2.
Proof.
  revert p2.
  induction p1 as [| i p1 IH]; intros [| j p2]; simpl; try discriminate.
  - reflexivity.
  - intros H; injection H as Hij Hp.
    f_equal; [| now apply IH].
    destruct i, j; try discriminate Hij; reflexivity.
Qed.

(** Writing a program in upper case and decoding it gives the method names
    of its instructions in order, and two different programs never decode to
    the same array. *)
Theorem decode_command_string (prog : list Instruction) :
  prog <> [] ->
  instructions (VString (command_string prog)) = Normal (map method_name prog)
  /\ forall prog' : list Instruction,
      prog' <> [] ->
      instructions (VString (command_string prog'))
      = instructions (VString (command_string prog)) ->
      prog' = prog.
Proof.
  intros Hne; split.
  - now apply instructions_command_string.
  - intros prog' Hne' H.
    rewrite !instructions_command_string in H by assumption.
    injection H as H. now apply map_method_name_inj.
Qed.

Lemma decode_command_string_witness :
  instructions (VString (command_string [TurnRight; Advance; TurnLeft]))
  = Normal [VString "turnRight"; VString "advance"; VString "turnLeft"].
Proof.
  apply (decode_command_string [TurnRight; Advance; TurnLeft]).
  discriminate.
Defined.

(** ** evaluate, again *)

Lemma list_ascii_of_string_app (s1 s2 : string) :
  list_ascii_of_string (s1 ++ s2)
  = (list_ascii_of_string s1 ++ list_ascii_of_string s2)%list.
Proof.
  induction s1 as [| a s1 IH]; simpl; congruence.
Qed.

Lemma spread_app (s1 s2 : string) :
  spread (s1 ++ s2) = (spread s1 ++ spread s2)%list.
Proof.
  unfold spread. now rewrite list_ascii_of_string_app, map_app.
Qed.

Lemma test_ARL_plus_toUpperCase_app (s1 s2 : string) :
  test_ARL_plus (toUpperCase s1) = true ->
  (forall c, In c (list_ascii_of_string s2) -> In c command_letters) ->
  test_ARL_plus (toUpperCase (s1 ++ s2)) = true.
Proof.
  intros H1 H2.
  apply test_ARL_plus_toUpperCase in H1. destruct H1 as [Hne H1].
  apply test_ARL_plus_toUpperCase; split.
  - destruct s1; [contradiction | discriminate].
  - intros c Hc. rewrite list_ascii_of_string_app in Hc.
    apply in_app_or in Hc. destruct Hc; auto.
Qed.

Lemma forEach_app {A : Type} (l1 l2 : list A) (f : A -> M unit) (this : Robot) :
  forEach (l1 ++ l2) f this = (forEach l1 f ;;; forEach l2 f) this.
Proof.
  revert this.
  induction l1 as [| a l1 IH]; intros this; simpl; [reflexivity |].
  unfold bind.
  destruct (f a this) as [[[] | e] this0]; [| reflexivity].
  rewrite IH. reflexivity.
Qed.

Lemma evaluate_Normal (instrs : value) (l : list value) (this : Robot) :
  instructions instrs = Normal l ->
  evaluate instrs this = forEach l (fun i => call_method i) this.
Proof.
  intros H. unfold evaluate, bind, lift. now rewrite H.
Qed.

(** When two strings both decode, evaluating their concatenation is
    evaluating the first and then, if that completed, the second: from every
    receiver, and with the same error and the same receiver left behind when
    an instruction throws. *)
Theorem evaluate_app (s1 s2 : string) (l1 l2 : list value) (this : Robot) :
  instructions (VString s1) = Normal l1 ->
  instructions (VString s2) = Normal l2 ->
  instructions (VString (s1 ++ s2)) = Normal (l1 ++ l2)%list
  /\ evaluate (VString (s1 ++ s2)) this
     = (evaluate (VString s1) ;;; evaluate (VString s2)) this.
Proof.
  intros H1 H2.
  assert (H12 : instructions (VString (s1 ++ s2)) = Normal (l1 ++ l2)%list).
  { apply instructions_Normal_iff in H1, H2.
    destruct H1 as (s1' & E1 & Ht1 & ->), H2 as (s2' & E2 & Ht2 & ->).
    injection E1 as <-; injection E2 as <-.
    apply instructions_Normal_iff. exists (s1 ++ s2); repeat split.
    - apply test_ARL_plus_toUpperCase_app; [assumption |].
      now apply test_ARL_plus_toUpperCase in Ht2.
    - now rewrite spread_app, map_app. }
  split; [exact H12 |].
  rewrite (evaluate_Normal _ _ this H12), forEach_app.
  unfold bind.
  rewrite (evaluate_Normal _ _ this H1).
  destruct (forEach l1 (fun i => call_method i) this) as [[[] | e] this0];
    [| reflexivity].
  now rewrite (evaluate_Normal _ _ this0 H2).
Qed.

Lemma evaluate_app_witness :
  evaluate (VString ("RA" ++ "AL")) new_Robot
  = (evaluate (VString "RA") ;;; evaluate (VString "AL")) new_Robot.
Proof.
  apply (evaluate_app "RA" "AL"
           [VString "turnRight"; VString "advance"]
           [VString "advance"; VString "turnLeft"] new_Robot);
    reflexivity.
Defined.

(** On a robot whose position is set, a string that decodes runs its
    upper-case prefix and stops at the first lower-case letter with a
    [TypeError]: the receiver is left where the methods of the prefix
    brought it, and the rest of the string is not run. *)
Theorem evaluate_stops_at_lower_case
  (prog : list Instruction) (c : ascii) (rest : string) (this : Robot) :
  In c ["a"; "l"; "r"]%char ->
  (forall c', In c' (list_ascii_of_string rest) -> In c' command_letters) ->
  coords this <> None ->
  evaluate (VString (command_string prog ++ String c rest)) this
  = (Throw TypeError, run_methods prog this).
Proof.
  intros Hc Hrest Hpos.
  assert (Hdec : instructions (VString (command_string prog ++ String c rest))
                 = Normal (map method_name prog
                           ++ VUndefined
                              :: map (fun i => commands_get i) (spread rest))%list).
  { apply instructions_Normal_iff.
    exists (command_string prog ++ String c rest); repeat split.
    - apply test_ARL_plus_toUpperCase; split.
      + destruct (command_string prog); discriminate.
      + intros c' Hc'. rewrite list_ascii_of_string_app in Hc'.
        apply in_app_or in Hc'. destruct Hc' as [Hc' | [<- | Hc']].
        * apply (all_class_ARL_toUpperCase (command_string prog));
            [| exact Hc'].
          rewrite toUpperCase_command_string.
          apply all_class_ARL_command_string.
        * simpl in Hc |- *. tauto.
        * now apply Hrest.
    - rewrite spread_app, map_app, spread_command_string.
      f_equal. unfold spread; simpl. f_equal.
      simpl in Hc. destruct Hc as [<- | [<- | [<- | []]]]; reflexivity. }
  rewrite (evaluate_Normal _ _ _ Hdec), forEach_app.
  unfold bind. rewrite forEach_run_methods by assumption. reflexivity.
Qed.

Lemma evaluate_stops_at_lower_case_witness :
  evaluate (VString "RAlA") (placed (on_lattice (North, (0, 0))))
  = (Throw TypeError, placed (on_lattice (East, (1, 0)))).
Proof.
  apply (evaluate_stops_at_lower_case
           [TurnRight; Advance] "l"%char "A"
           (placed (on_lattice (North, (0, 0))))).
  - right; left; reflexivity.
  - intros c' [<- | []]. left; reflexivity.
  - discriminate.
Defined.

(** *** The lattice of the specification

    While the coordinates stay of magnitude at most [2^53], the methods
    compute on the numbers what the state machine of the specification
    computes on the integers. *)

Lemma advances_nonneg (prog : list Instruction) : 0 <= advances prog.
Proof.
  induction prog as [| [] prog IH]; cbn [advances]; lia.
Qed.

Lemma instruction_method_lattice (i : Instruction) (st : Orientation * (Z * Z)) :
  (i = Advance -> lattice_room 1 st) ->
  instruction_method i (placed (on_lattice st))
  = (Normal tt, placed (on_lattice (spec_step st i))).
Proof.
  destruct st as [o [x y]].
  unfold lattice_room; cbn [fst snd].
  intros Hroom.
  destruct i; [| destruct o; reflexivity | destruct o; reflexivity].
  destruct (Hroom eq_refl) as [Hx Hy].
  destruct o; unfold placed, on_lattice;
    cbn [fst snd spec_name spec_step spec_advance].
  - rewrite <- num_succ by lia. reflexivity.
  - rewrite <- num_succ by lia. reflexivity.
  - rewrite <- num_pred by lia. reflexivity.
  - rewrite <- num_pred by lia. reflexivity.
Qed.

Lemma spec_step_room (i : Instruction) (prog : list Instruction)
  (st : Orientation * (Z * Z)) :
  lattice_room (advances (i :: prog)) st ->
  (i = Advance -> lattice_room 1 st)
  /\ lattice_room (advances prog) (spec_step st i).
Proof.
  pose proof (advances_nonneg prog) as Hn.
  destruct st as [o [x y]].
  unfold lattice_room.
  destruct i, o; cbn [advances spec_step spec_advance fst snd];
    intros [Hx Hy]; (split; [intros E; try discriminate E |]); lia.
Qed.

Lemma run_methods_lattice (prog : list Instruction) (st : Orientation * (Z * Z)) :
  lattice_room (advances prog) st ->
  run_methods prog (placed (on_lattice st))
  = placed (on_lattice (spec_run prog st)).
Proof.
  revert st.
  induction prog as [| i prog IH]; intros st Hroom; [reflexivity |].
  destruct (spec_step_room i prog st Hroom) as [H1 Hrest].
  rewrite run_methods_cons, instruction_method_lattice by assumption.
  cbn [snd]. now rewrite IH.
Qed.

(** On a placed robot at a lattice point, with room for every advance of the
    program below [2^53], evaluating a non-empty upper-case program ends
    where the state machine of the specification ends. *)
Theorem evaluate_refines_spec_run
  (prog : list Instruction) (st : Orientation * (Z * Z)) :
  prog <> [] ->
  lattice_room (advances prog) st ->
  evaluate (VString (command_string prog)) (placed (on_lattice st))
  = (Normal tt, placed (on_lattice (spec_run prog st))).
Proof.
  intros Hne Hroom.
  rewrite (evaluate_Normal _ _ _ (instructions_command_string _ Hne)).
  rewrite forEach_run_methods by discriminate.
  now rewrite run_methods_lattice.
Qed.

Lemma evaluate_refines_spec_run_witness :
  evaluate (VString "LAAR") (placed (on_lattice (North, (0, 0))))
  = (Normal tt, placed (on_lattice (North, (-2, 0)))).
Proof.
  apply (evaluate_refines_spec_run
           [TurnLeft; Advance; Advance; TurnRight] (North, (0, 0))).
  - discriminate.
  - unfold lattice_room; simpl; lia.
Defined.

Lemma spec_run_repeat_Advance (k : nat) (o : Orientation) (x y : Z) :
  spec_run (repeat Advance k) (o, (x, y))
  = (o, match o with
        | North => (x, y + Z.of_nat k)
        | East => (x + Z.of_nat k, y)
        | South => (x, y - Z.of_nat k)
        | West => (x - Z.of_nat k, y)
        end).
Proof.
  revert x y.
  induction k as [| k IH]; intros x y.
  - destruct o; simpl; f_equal; f_equal; lia.
  - change (spec_run (repeat Advance (S k)) (o, (x, y)))
      with (spec_run (repeat Advance k) (o, spec_advance o (x, y))).
    destruct o; simpl spec_advance; rewrite IH; f_equal; f_equal; lia.
Qed.

Lemma advances_repeat_Advance (k : nat) :
  advances (repeat Advance k) = Z.of_nat k.
Proof.
  induction k as [| k IH]; [reflexivity |].
  cbn [repeat advances]. lia.
Qed.

(** [k] advances in a row move a placed robot [k] units along its
    orientation and keep the orientation, when the robot starts on a lattice
    point with room for [k] steps below [2^53]. *)
Theorem evaluate_repeat_advance (k : nat) (o : Orientation) (x y : Z) :
  k <> 0%nat ->
  lattice_room (Z.of_nat k) (o, (x, y)) ->
  evaluate (VString (command_string (repeat Advance k)))
    (placed (on_lattice (o, (x, y))))
  = (Normal tt,
     placed (on_lattice
               (o, match o with
                   | North => (x, y + Z.of_nat k)
                   | East => (x + Z.of_nat k, y)
                   | South => (x, y - Z.of_nat k)
                   | West => (x - Z.of_nat k, y)
                   end))).
Proof.
  intros Hk Hroom.
  assert (Hne : repeat Advance k <> []).
  { destruct k; [contradiction | discriminate]. }
  rewrite (evaluate_Normal _ _ _ (instructions_command_string _ Hne)).
  rewrite forEach_run_methods by discriminate.
  rewrite run_methods_lattice
    by (now rewrite advances_repeat_Advance).
  now rewrite spec_run_repeat_Advance.
Qed.

Lemma evaluate_repeat_advance_witness :
  evaluate (VString "AAA") (placed (on_lattice (West, (1, 5))))
  = (Normal tt, placed (on_lattice (West, (1 - 3, 5)))).
Proof.
  apply (evaluate_repeat_advance 3 West 1 5).
  - discriminate.
  - unfold lattice_room; simpl; lia.
Defined.

Lemma spec_run_displacement (prog : list Instruction) (st : Orientation * (Z * Z)) :
  Z.abs (fst (snd (spec_run prog st)) - fst (snd st))
  + Z.abs (snd (snd (spec_run prog st)) - snd (snd st))
  <= advances prog.
Proof.
  revert st.
  induction prog as [| i prog IH]; intros st.
  - simpl. lia.
  - change (spec_run (i :: prog) st) with (spec_run prog (spec_step st i)).
    specialize (IH (spec_step st i)).
    assert (Hstep : Z.abs (fst (snd (spec_step st i)) - fst (snd st))
                    + Z.abs (snd (snd (spec_step st i)) - snd (snd st))
                    + advances prog
                    <= advances (i :: prog)).
    { destruct st as [o [x y]].
      destruct i, o; cbn [spec_step spec_advance fst snd advances]; lia. }
    remember (advances (i :: prog)) as n.
    remember (advances prog) as m.
    destruct (spec_run prog (spec_step st i)) as [o2 [x2 y2]].
    destruct (spec_step st i) as [o1 [x1 y1]].
    destruct st as [o [x y]].
    simpl in *. lia.
Qed.

(** On a placed robot at a lattice point, with room for every advance of the
    program below [2^53], a program never moves the robot further than its
    number of advance commands, counted in grid steps; a program without
    advance commands leaves the position where it was. *)
Theorem evaluate_displacement_bound
  (prog : list Instruction) (st : Orientation * (Z * Z)) :
  prog <> [] ->
  lattice_room (advances prog) st ->
  exists st' : Orientation * (Z * Z),
    evaluate (VString (command_string prog)) (placed (on_lattice st))
    = (Normal tt, placed (on_lattice st'))
    /\ lattice_room 0 st'
    /\ Z.abs (fst (snd st') - fst (snd st))
       + Z.abs (snd (snd st') - snd (snd st))
       <= advances prog
    /\ (advances prog = 0 -> snd st' = snd st).
Proof.
  intros Hne Hroom.
  exists (spec_run prog st).
  rewrite (evaluate_Normal _ _ _ (instructions_command_string _ Hne)).
  rewrite forEach_run_methods by discriminate.
  rewrite run_methods_lattice by assumption.
  pose proof (spec_run_displacement prog st) as Hd.
  split; [reflexivity |].
  assert (Hroom' : lattice_room 0 (spec_run prog st)).
  { unfold lattice_room in *.
    destruct (spec_run prog st) as [o' [x' y']], st as [o [x y]].
    cbn [fst snd] in *. lia. }
  repeat split; try apply Hroom'; [exact Hd |].
  intros H0. rewrite H0 in Hd.
  destruct (spec_run prog st) as [o' [x' y']], st as [o [x y]]; simpl in *.
  f_equal; lia.
Qed.

Lemma evaluate_displacement_bound_witness :
  exists st' : Orientation * (Z * Z),
    evaluate (VString "LAAR") (placed (on_lattice (North, (0, 0))))
    = (Normal tt, placed (on_lattice st'))
    /\ lattice_room 0 st'
    /\ Z.abs (fst (snd st') - 0) + Z.abs (snd (snd st') - 0) <= 2
    /\ (2 = 0 -> snd st' = (0, 0)).
Proof.
  apply (evaluate_displacement_bound
           [TurnLeft; Advance; Advance; TurnRight] (North, (0, 0))).
  - discriminate.
  - unfold lattice_room; simpl; lia.
Defined.

(** ** A placed robot stays placed *)

Lemma at_coords_set (x y : value) (this : Robot) :
  coords this <> None -> coords (snd (at_ x y this)) <> None.
Proof.
  intros H.
  destruct (at_cases x y this) as [[_ ->] | (_ & _ & ->)]; simpl;
    [exact H | discriminate].
Qed.

Lemma place_coords_set (placement : value) (this : Robot) :
  coords this <> None -> coords (snd (place placement this)) <> None.
Proof.
  intros H.
  unfold place.
  destruct (negb (validateObject placement)); [exact H |].
  destruct (Object_keys_length placement =? 0)%nat; [exact H |].
  unfold bind.
  pose proof (at_coords_set (get_prop placement "x")
                (get_prop placement "y") this H) as Hat.
  destruct (at_ (get_prop placement "x") (get_prop placement "y") this)
    as [[[] | e] this0]; simpl in *.
  - now rewrite orient_coords.
  - exact Hat.
Qed.

Lemma call_method_coords_set (instruction : value) (this : Robot) :
  coords this <> None -> coords (snd (call_method instruction this)) <> None.
Proof.
  intros H.
  unfold call_method.
  destruct (instruction === "advance").
  - unfold bind.
    pose proof (advance_coords_set this H) as Ha.
    destruct (advance this) as [[r | e] this0]; simpl in *; exact Ha.
  - destruct (instruction === "turnLeft");
      [unfold turnLeft; now rewrite turn_coords |].
    destruct (instruction === "turnRight");
      [unfold turnRight; now rewrite turn_coords |].
    exact H.
Qed.

Lemma forEach_call_method_coords_set (l : list value) (this : Robot) :
  coords this <> None ->
  coords (snd (forEach l (fun i => call_method i) this)) <> None.
Proof.
  revert this.
  induction l as [| i l IH]; intros this H; simpl; [exact H |].
  unfold bind.
  pose proof (call_method_coords_set i this H) as Hi.
  destruct (call_method i this) as [[[] | e] this0]; simpl in *.
  - now apply IH.
  - exact Hi.
Qed.

Lemma perform_coords_set (op : operation) (this : Robot) :
  coords this <> None -> coords (snd (perform op this)) <> None.
Proof.
  intros H.
  destruct op; simpl.
  - now rewrite orient_coords.
  - unfold turnLeft; now rewrite turn_coords.
  - unfold turnRight; now rewrite turn_coords.
  - unfold bind.
    pose proof (advance_coords_set this H) as Ha.
    destruct (advance this) as [[r | e] this0]; simpl in *; exact Ha.
  - now apply place_coords_set.
  - unfold evaluate, bind, lift.
    destruct (instructions instrs) as [l | e]; [| exact H].
    now apply forEach_call_method_coords_set.
Qed.

Lemma placed_iff (this : Robot) :
  (exists st, this = placed st)
  <-> one_of_four_names (orientation this) /\ coords this <> None.
Proof.
  split.
  - intros [[o p] ->]; split; [| discriminate].
    unfold one_of_four_names; destruct o; simpl; auto.
  - destruct this as [v [p |]]; simpl; intros [Hv Hc]; [| contradiction].
    four_names Hv; subst v.
    + now exists (North, p).
    + now exists (East, p).
    + now exists (South, p).
    + now exists (West, p).
Qed.

(** From a placed robot, every sequence of operations, with any arguments
    and whether or not some of them throw, leaves a placed robot: the
    position is never unset again and the orientation is never anything but
    one of the four names. *)
Theorem placed_stays_placed
  (ops : list operation) (st : Orientation * (number * number)) :
  exists st' : Orientation * (number * number),
    perform_all ops (placed st) = placed st'.
Proof.
  apply placed_iff.
  assert (H : one_of_four_names (orientation (placed st))
              /\ coords (placed st) <> None).
  { apply placed_iff. now exists st. }
  revert H. generalize (placed st) as this.
  induction ops as [| op ops IH]; intros this [Ho Hc]; simpl.
  - now split.
  - apply IH; split.
    + now apply perform_keeps_names.
    + now apply perform_coords_set.
Qed.

Lemma forEach_throws_undefined (keys : list string) (this this' : Robot) (e : error) :
  coords this <> None ->
  forEach (map (fun i => commands_get i) keys) (fun i => call_method i) this
  = (Throw e, this') ->
  In VUndefined (map (fun i => commands_get i) keys).
Proof.
  revert this.
  induction keys as [| k ks IH]; intros this Hpos H; simpl in *.
  - discriminate H.
  - unfold bind in H.
    destruct (commands_get k) eqn:Ek; auto;
      try (unfold commands_get in Ek;
           destruct (assoc k commands); discriminate Ek).
    right.
    assert (Hm : exists i, VString s = method_name i).
    { unfold commands_get in Ek; simpl in Ek.
      destruct (k =? "A")%string; [inversion Ek; now exists Advance |].
      destruct (k =? "L")%string; [inversion Ek; now exists TurnLeft |].
      destruct (k =? "R")%string; [inversion Ek; now exists TurnRight |].
      discriminate Ek. }
    destruct Hm as [i Hi]. rewrite Hi in H.
    rewrite call_method_method_name in H.
    destruct (instruction_method_completes i this Hpos) as [Hc Hs].
    destruct (instruction_method i this) as [[[] | e0] this0]; simpl in *;
      [| discriminate Hc].
    now apply (IH this0).
Qed.

(** On a placed robot, [advance], [turnLeft] and [turnRight] never throw, and
    the only errors [evaluate] can end with are the decoder's
    [InvalidInputError], which leaves the robot as it was, and the
    [TypeError] of a lower-case letter. *)
Theorem placed_operations_errors (st : Orientation * (number * number)) :
  (exists r, fst (advance (placed st)) = Normal r)
  /\ fst (turnLeft (placed st)) = Normal tt
  /\ fst (turnRight (placed st)) = Normal tt
  /\ forall (instrs : value) (e : error) (this' : Robot),
      evaluate instrs (placed st) = (Throw e, this') ->
      (is_InvalidInput e = true /\ this' = placed st
       /\ instructions instrs = Throw e)
      \/ (e = TypeError
          /\ exists l, instructions instrs = Normal l /\ In VUndefined l).
Proof.
  repeat split.
  - apply advance_with_position. discriminate.
  - apply turn_completes; reflexivity.
  - apply turn_completes; reflexivity.
  - intros instrs e this'.
    unfold evaluate, bind, lift.
    destruct (instructions instrs) as [l | e0] eqn:E.
    + intros H. right.
      assert (He : e = TypeError)
        by now apply (forEach_call_method_throws l (placed st) this').
      split; [exact He |].
      exists l; split; [reflexivity |].
      apply instructions_Normal_iff in E.
      destruct E as (s & _ & _ & ->).
      apply (forEach_throws_undefined (spread s) (placed st) this' e);
        [discriminate | exact H].
    + intros H; inversion H; subst. left; repeat split.
      unfold instructions in E.
      destruct (negb (validateString instrs)
                || negb (test_ARL_plus (toUpperCase (string_of instrs))));
        inversion E; reflexivity.
Qed.

Lemma place_succeeds_iff_witness :
  place sample_placement new_Robot = (Normal tt, sample_robot).
Proof.
  apply (proj2 (place_succeeds_iff sample_placement new_Robot sample_robot)).
  repeat split; [discriminate | left; reflexivity].
Defined.

Lemma placed_operations_errors_witness :
  (is_InvalidInput TypeError = true
   /\ placed (on_lattice (East, (0, 0))) = placed (on_lattice (North, (0, 0)))
   /\ instructions (VString "Ra") = Throw TypeError)
  \/ (TypeError = TypeError
      /\ exists l, instructions (VString "Ra") = Normal l /\ In VUndefined l).
Proof.
  apply (proj2 (proj2 (proj2 (placed_operations_errors
                                (on_lattice (North, (0, 0))))))
           (VString "Ra") TypeError (placed (on_lattice (East, (0, 0))))).
  reflexivity.
Defined.
